(** * recap_server: the process shell, the Blaze message records and the
    Blaze/TDF wire protocol

    The first part embeds [darkspore_server/source/main.cpp] (the
    [Application] singleton, its start-up, event loop and teardown) and the
    [Blaze::ClientMessage] record of [blaze/functions.h].  The second part
    models the tag codec, the integer codec, the TDF value codec and the
    dispatcher, whose sources ([blaze/tdf.h] and the server classes) are
    included by these files but are not part of the source tree at hand. *)

From Stdlib Require Import ZArith Lia Bool Ascii.
From stdpp Require Import base option list gmap strings.

Local Open Scope Z_scope.

(** ** Outcomes of code that may throw *)

(** What a C++ [throw] carries: something derived from [std::exception]
    (with its [what()] text) or any other thrown object. *)
Inductive exn : Type :=
| std_exception (what : string)
| foreign_exception.

Inductive outcome (A : Type) : Type :=
| Ret (a : A)
| Raise (e : exn).
Arguments Ret {A} a.
Arguments Raise {A} e.

(** ** main.cpp *)
Module App.

(** Modelled from the spec: [Game::Config] ([game/config.h] is not in the
    source tree) is the flat key/value bag of the configuration section;
    the numeric options are held as numbers. *)
Definition Config : Type := gmap string Z.

(** [Blaze::Server(io, port)], [QoS::Server(io, port)] and
    [HTTP::Server(io, port)]: the classes are declared elsewhere; what
    main.cpp fixes is the port each acceptor is constructed with. *)
Record BlazeServer : Type := { blaze_port : Z }.
Record QoSServer : Type := { qos_port : Z }.
Record HttpServer : Type := { http_port : Z; http_router : Z }.

(** A fresh HTTP server owns its own router, named here by its port. *)
Definition HttpServer_new (port : Z) : HttpServer :=
  {| http_port := port; http_router := port |}.
Definition get_router (s : HttpServer) : Z := http_router s.
Definition set_router (r : Z) (s : HttpServer) : HttpServer :=
  {| http_port := http_port s; http_router := r |}.

Record GameAPI : Type := { api_version : string; api_ready : bool }.
Definition GameAPI_setup (g : GameAPI) : GameAPI :=
  {| api_version := api_version g; api_ready := true |}.

Inductive signal : Type := SIGINT | SIGTERM.

(** The members of [Application] that main.cpp names. *)
Record Application : Type := {
  mIoStopped : bool;                 (* mIoService, reduced to its stopped flag *)
  mSignals : list signal;            (* signal set waited on by the constructor *)
  mSporeNet : option unit;
  mGameAPI : option GameAPI;
  mRedirectorServer : option BlazeServer;
  mBlazeServer : option BlazeServer;
  mPssServer : option BlazeServer;
  mTickServer : option BlazeServer;
  mTestServer : option QoSServer;
  mHttpServer : option HttpServer;
  mQosServer : option HttpServer
}.

(** [Application::Application()]: an io service and a signal set for SIGINT
    and SIGTERM; every owning pointer starts empty. *)
Definition Application_new : Application :=
  {| mIoStopped := false; mSignals := [SIGINT; SIGTERM];
     mSporeNet := None; mGameAPI := None;
     mRedirectorServer := None; mBlazeServer := None;
     mPssServer := None; mTickServer := None; mTestServer := None;
     mHttpServer := None; mQosServer := None |}.

(** What the shell does that an observer can see, in order. *)
Inductive member : Type :=
| GameApi | Redirector | BlazeMain | Pss | Tick | QosProbe | Http | QosHttp | SporeNetInst.

Inductive action : Type :=
| ALoadConfig (file : string)
| AListen (m : member) (port : Z)
| AIoStop
| AReset (m : member)
| AStderr (line : string).

(** The process: the heap of [Application] objects, the static pointer
    [Application::sApplication] and the log of actions. *)
Record World : Type := {
  heap : gmap nat Application;
  sApplication : option nat;
  trace : list action
}.

(** [Application* Application::sApplication = nullptr;] *)
Definition World_start : World :=
  {| heap := ∅; sApplication := None; trace := [] |}.

Definition emit (a : action) (w : World) : World :=
  {| heap := heap w; sApplication := sApplication w; trace := trace w ++ [a] |}.

Definition modify (this : nat) (f : Application -> Application) (w : World) : World :=
  {| heap := alter f this (heap w); sApplication := sApplication w; trace := trace w |}.

(** [new Application]: the next free address receives a constructed object. *)
Definition new_Application (w : World) : nat * World :=
  let a := fresh (dom (heap w)) in
  (a, {| heap := <[a := Application_new]> (heap w);
         sApplication := sApplication w; trace := trace w |}).

(** [Application::InitApp(argc, argv)] *)
Definition InitApp (argc : Z) (argv : list string) (w : World) : nat * World :=
  match sApplication w with
  | None =>
      let '(a, w1) := new_Application w in
      (a, {| heap := heap w1; sApplication := Some a; trace := trace w1 |})
  | Some a => (a, w)
  end.

(** [Application::GetApp()]: dereferences the static pointer; [None] stands
    for the dereference of a null pointer. *)
Definition GetApp (w : World) : option nat := sApplication w.

(** Running [InitApp] once per argument pair, in sequence. *)
Fixpoint InitApp_calls (calls : list (Z * list string)) (w : World) : list nat * World :=
  match calls with
  | [] => ([], w)
  | (argc, argv) :: rest =>
      let '(a, w1) := InitApp argc argv w in
      let '(refs, w2) := InitApp_calls rest w1 in
      (a :: refs, w2)
  end.

(** The member assignments of [OnInit], in the order of the source. *)
Definition OnInit_members (app : Application) : Application :=
  let http := HttpServer_new 80 in
  let qos := HttpServer_new 17502 in
  {| mIoStopped := mIoStopped app; mSignals := mSignals app;
     mSporeNet := Some tt;
     mGameAPI := Some (GameAPI_setup {| api_version := "5.3.0.127"; api_ready := false |});
     mRedirectorServer := Some {| blaze_port := 42127 |};
     mBlazeServer := Some {| blaze_port := 10041 |};
     mPssServer := Some {| blaze_port := 8443 |};
     mTickServer := Some {| blaze_port := 8999 |};
     mTestServer := Some {| qos_port := 3659 |};
     mHttpServer := Some http;
     mQosServer := Some (set_router (get_router http) qos) |}.

(** [Application::OnInit()]: loads config.xml, then constructs the servers.
    The configuration [cfg] is what [Game::Config::Load] read. *)
Definition OnInit (cfg : Config) (this : nat) (w : World) : bool * World :=
  let w := emit (ALoadConfig "config.xml") w in
  let w := emit (AListen Redirector 42127) w in
  let w := emit (AListen BlazeMain 10041) w in
  let w := emit (AListen Pss 8443) w in
  let w := emit (AListen Tick 8999) w in
  let w := emit (AListen QosProbe 3659) w in
  let w := emit (AListen Http 80) w in
  let w := emit (AListen QosHttp 17502) w in
  (true, modify this OnInit_members w).

(** The six [reset()] calls of [OnExit]. *)
Definition OnExit_members (app : Application) : Application :=
  {| mIoStopped := mIoStopped app; mSignals := mSignals app;
     mSporeNet := None;
     mGameAPI := None;
     mRedirectorServer := None;
     mBlazeServer := None;
     mPssServer := mPssServer app;
     mTickServer := mTickServer app;
     mTestServer := mTestServer app;
     mHttpServer := None;
     mQosServer := None |}.

(** [Application::OnExit()] *)
Definition OnExit (this : nat) (w : World) : Z * World :=
  let w := emit (AReset GameApi) w in
  let w := emit (AReset Redirector) w in
  let w := emit (AReset BlazeMain) w in
  let w := emit (AReset Http) w in
  let w := emit (AReset QosHttp) w in
  let w := emit (AReset SporeNetInst) w in
  (0, modify this OnExit_members w).

(** What ends [mIoService.run()]: a signal is delivered, the loop runs out
    of work, or a completion handler throws. *)
Inductive loop_end : Type :=
| Signalled (s : signal)
| OutOfWork
| Thrown (e : exn).

Definition io_stop (app : Application) : Application :=
  {| mIoStopped := true; mSignals := mSignals app;
     mSporeNet := mSporeNet app; mGameAPI := mGameAPI app;
     mRedirectorServer := mRedirectorServer app; mBlazeServer := mBlazeServer app;
     mPssServer := mPssServer app; mTickServer := mTickServer app;
     mTestServer := mTestServer app;
     mHttpServer := mHttpServer app; mQosServer := mQosServer app |}.

(** The handler installed by the constructor:
    [mSignals.async_wait([&](auto, auto) { mIoService.stop(); })]. *)
Definition on_signal (this : nat) (w : World) : World :=
  modify this io_stop (emit AIoStop w).

(** [mIoService.run()] under the environment's choice [ev]. *)
Definition io_run (ev : loop_end) (this : nat) (w : World) : outcome unit * World :=
  match ev with
  | Signalled _ => (Ret tt, on_signal this w)
  | OutOfWork => (Ret tt, w)
  | Thrown e => (Raise e, w)
  end.

(** [Application::Run()]: [catch (std::exception& e)] prints [e.what()];
    anything else propagates. *)
Definition Run (ev : loop_end) (this : nat) (w : World) : outcome unit * World :=
  match io_run ev this w with
  | (Ret tt, w1) => (Ret tt, w1)
  | (Raise (std_exception what), w1) => (Ret tt, emit (AStderr what) w1)
  | (Raise foreign_exception, w1) => (Raise foreign_exception, w1)
  end.

(** How the process ends: [main] returns a code, or an exception leaves
    [main] and [std::terminate] is called. *)
Inductive process_end : Type :=
| Exit (code : Z)
| Terminate (e : exn).

(** [int main(int argc, char* argv[])] *)
Definition main (cfg : Config) (ev : loop_end) (argc : Z) (argv : list string)
    (w : World) : process_end * World :=
  let '(app, w) := InitApp argc argv w in
  let '(ok, w) := OnInit cfg app w in
  if negb ok then
    let '(_, w) := OnExit app w in (Exit 1, w)
  else
    match Run ev app w with
    | (Raise e, w) => (Terminate e, w)
    | (Ret tt, w) => let '(code, w) := OnExit app w in (Exit code, w)
    end.

(** The ports the two Blaze endpoints are listening on after start-up. *)
Definition blaze_port_of (w : World) (this : nat) : option Z :=
  app ← heap w !! this; blaze_port <$> mBlazeServer app.
Definition redirector_port_of (w : World) (this : nat) : option Z :=
  app ← heap w !! this; blaze_port <$> mRedirectorServer app.

(** The ports a started process listens on, as a function of the
    configuration alone. *)
Definition started (cfg : Config) : nat * World :=
  let '(app, w) := InitApp 1 ["recap_server"] World_start in
  (app, snd (OnInit cfg app w)).

(** The start-up log: the configuration file read and the seven listeners,
    with the ports of the source. *)
Definition OnInit_trace : list action :=
  [ALoadConfig "config.xml"; AListen Redirector 42127; AListen BlazeMain 10041;
   AListen Pss 8443; AListen Tick 8999; AListen QosProbe 3659;
   AListen Http 80; AListen QosHttp 17502].

Definition OnExit_trace : list action :=
  [AReset GameApi; AReset Redirector; AReset BlazeMain;
   AReset Http; AReset QosHttp; AReset SporeNetInst].

(** The acceptor's shutdown protocol as its design words it: a second
    vocabulary, against which the shell's log is read. *)
Inductive shutdown_step : Type :=
| StopAccepting | BroadcastDrain | WaitGrace | ForceClose.

Global Instance shutdown_step_eq_dec : EqDecision shutdown_step.
Proof. solve_decision. Defined.

(** The most generous reading of a logged action as protocol steps: halting
    the reactor ends accepting, destroying a server closes what it holds.
    No action of the shell notifies a session or waits. *)
Definition reads_as (a : action) : list shutdown_step :=
  match a with
  | AIoStop => [StopAccepting]
  | AReset Redirector | AReset BlazeMain | AReset Http | AReset QosHttp => [ForceClose]
  | _ => []
  end.

(** A log shows a graceful shutdown when the four steps occur in order. *)
Definition graceful_shutdown (t : list action) : Prop :=
  [StopAccepting; BroadcastDrain; WaitGrace; ForceClose] `sublist_of` (t ≫= reads_as).

(** The claim that the listening ports come from the configuration. *)
Definition ports_follow_config (cfg : Config) : Prop :=
  let '(app, w) := started cfg in
  blaze_port_of w app = cfg !! "listen.blaze" ∧
  redirector_port_of w app = cfg !! "listen.redirector".

End App.

(** ** blaze/functions.h: [Blaze::ClientMessage] *)
Module Blaze.

(** Modelled from the spec: [object_id] is declared in [blaze/tdf.h], which
    is not in the source tree; the data model gives an object id as an
    object type (component id, type id) followed by an entity id, and the
    source initialises it from three numbers. *)
Record object_id : Type := {
  oid_component : Z;
  oid_type : Z;
  oid_id : Z
}.

(** [struct ClientMessage], fields in the order of the source. *)
Record ClientMessage : Type := {
  attributes : gmap Z string;
  target : object_id;
  flags : Z;
  stat : Z;
  tag : Z;
  type : Z
}.

(** Default construction: the default member initialisers of the struct;
    a [std::map] starts empty. *)
Definition ClientMessage_default : ClientMessage :=
  {| attributes := ∅;
     target := {| oid_component := 0; oid_type := 0; oid_id := 0 |};
     flags := 0; stat := 0; tag := 0; type := 0 |}.

(** Assignment to the one member that has no initialiser of its own. *)
Definition set_attributes (a : gmap Z string) (m : ClientMessage) : ClientMessage :=
  {| attributes := a; target := target m;
     flags := flags m; stat := stat m; tag := tag m; type := type m |}.

End Blaze.

(** ** The tag codec *)
Module Tag.

(** Modelled from the spec: the tag codec lives with [blaze/tdf.h], which
    is not in the source tree.  A label is exactly four characters of
    [A-Z0-9_ ]; [pack] spreads the four character codes over a 32-bit word
    in a fixed pattern and fails with [MalformedTag] on a character outside
    the alphabet; [unpack] is total and reads every field whose bits name
    no character as a filler.  The layout chosen here gives each character
    six bits from the top of the word, the fourth ending above the low
    byte, whose bits are reserved for the wire codec's kind descriptor.
    Character codes start at 1 so that no packed label begins with a zero
    byte.  The filler is a parameter. *)
Record Label : Type := { l0 : ascii; l1 : ascii; l2 : ascii; l3 : ascii }.

(** Modelled from the spec: the one error of the tag codec. *)
Inductive TagError : Type := MalformedTag.

(** The four characters of a label, in order. *)
Definition chars (l : Label) : list ascii := [l0 l; l1 l; l2 l; l3 l].

(** Modelled from the spec: membership in the alphabet [A-Z0-9_ ], by
    character code. *)
Definition in_alphabet (c : ascii) : bool :=
  let n := Z.of_nat (nat_of_ascii c) in
  ((65 <=? n) && (n <=? 90)) || ((48 <=? n) && (n <=? 57)) || (n =? 95) || (n =? 32).

(** Modelled from the spec: the index of a character in the alphabet,
    counted from 1: letters 1..26, digits 27..36, underscore 37, space 38. *)
Definition code_of (c : ascii) : option Z :=
  let n := Z.of_nat (nat_of_ascii c) in
  if (65 <=? n) && (n <=? 90) then Some (n - 64)
  else if (48 <=? n) && (n <=? 57) then Some (n - 21)
  else if n =? 95 then Some 37
  else if n =? 32 then Some 38
  else None.

(** Modelled from the spec: the fixed bit pattern; four six-bit codes, the
    first in bits 31..26, the fourth in bits 13..8, the low byte clear. *)
Definition layout (a b c d : Z) : Z :=
  Z.shiftl (Z.lor (Z.shiftl (Z.lor (Z.shiftl (Z.lor (Z.shiftl a 6) b) 6) c) 6) d) 8.

(** Modelled from the spec: [pack(label) -> tag]. *)
Definition pack (l : Label) : TagError + Z :=
  match code_of (l0 l), code_of (l1 l), code_of (l2 l), code_of (l3 l) with
  | Some a, Some b, Some c, Some d => inr (layout a b c d)
  | _, _, _, _ => inl MalformedTag
  end.

(** The six bits of a tag that start at bit [k]. *)
Definition field (t k : Z) : Z := Z.land (Z.shiftr t k) 63.

Section Unpack.
Variable filler : ascii.

(** Modelled from the spec: the character of a six-bit field; codes that
    name no character give the filler. *)
Definition char_of (k : Z) : ascii :=
  if (1 <=? k) && (k <=? 26) then ascii_of_nat (Z.to_nat (k + 64))
  else if (27 <=? k) && (k <=? 36) then ascii_of_nat (Z.to_nat (k + 21))
  else if k =? 37 then "_"%char
  else if k =? 38 then " "%char
  else filler.

(** Modelled from the spec: [unpack(tag) -> label], defined on every
    integer; the low byte is not read. *)
Definition unpack (t : Z) : Label :=
  {| l0 := char_of (field t 26);
     l1 := char_of (field t 20);
     l2 := char_of (field t 14);
     l3 := char_of (field t 8) |}.

End Unpack.

(** A tag that [pack] can produce. *)
Definition packed (t : Z) : Prop := ∃ l, pack l = inr t.

End Tag.

(** ** Reading bytes: a cursor and the reader monad *)
Module Wire.

(** Modelled from the spec: the error of the strict decoder (the wire codec
    is not in the source tree), [Malformed], with the byte offset at which
    it was found. *)
Inductive DecodeError : Type := Malformed (offset : nat).

(** A cursor: how many bytes were consumed, and the bytes still to read.
    Bytes are integers in 0..255. *)
Definition cursor : Type := (nat * list Z)%type.

Definition Reader (A : Type) : Type := cursor → DecodeError + (A * cursor).

Definition ret {A} (a : A) : Reader A := λ c, inr (a, c).

Definition bind {A B} (m : Reader A) (k : A → Reader B) : Reader B :=
  λ c, match m c with
       | inl e => inl e
       | inr (a, c') => k a c'
       end.

Definition malformed {A} : Reader A := λ c, inl (Malformed c.1).

(** One byte; running out of input is [Malformed] at the current offset. *)
Definition byte : Reader Z :=
  λ c, match c.2 with
       | [] => inl (Malformed c.1)
       | b :: r => inr (b, (S c.1, r))
       end.

(** [n] raw bytes. *)
Fixpoint bytes (n : nat) : Reader (list Z) :=
  match n with
  | O => ret []
  | S n' => bind byte (λ b, bind (bytes n') (λ bs, ret (b :: bs)))
  end.

Definition is_byte (b : Z) : Prop := 0 ≤ b < 256.

(** [reads r bs a]: wherever the bytes [bs] stand at the cursor, the reader
    [r] consumes exactly them and returns [a]. *)
Definition reads {A} (r : Reader A) (bs : list Z) (a : A) : Prop :=
  ∀ pos rest, r (pos, bs ++ rest) = inr (a, ((pos + length bs)%nat, rest)).

End Wire.

Notation "'let*' x ':=' m 'in' k" := (Wire.bind m (λ x, k))
  (at level 10, x name, m at level 100, k at level 200, only parsing).

(** ** The integer codec *)
Module Varint.
Import Wire.

(** Modelled from the spec: the wire codec is not in the source tree.  An
    unsigned value is written in groups of seven data bits, least
    significant group first, the top bit of a byte saying that another
    byte follows; a writer stops at the first group that ends the value,
    so it emits the smallest width.  Ten bytes hold any 64-bit value. *)
Fixpoint write_varint (fuel : nat) (u : Z) : list Z :=
  match fuel with
  | O => []
  | S f =>
      if u <? 128 then [u]
      else Z.lor (Z.land u 127) 128 :: write_varint f (Z.shiftr u 7)
  end.

(** The writer with the ten bytes a 64-bit value can need. *)
Definition varint_bytes (u : Z) : list Z := write_varint 10 u.

(** Modelled from the spec: the reader accepts a group of any width up to
    ten bytes and keeps the low 64 bits; when ten bytes have gone by and
    the last still asks for more, or the input ends, it fails with
    [Malformed]. *)
Fixpoint read_varint (fuel : nat) (shift acc : Z) : Reader Z :=
  match fuel with
  | O => malformed
  | S f =>
      let* b := byte in
      let acc' := Z.lor acc (Z.shiftl (Z.land b 127) shift) in
      if Z.testbit b 7 then read_varint f (shift + 7) acc'
      else ret (acc' mod 2 ^ 64)
  end.

(** The reader with its limit of ten bytes. *)
Definition varint : Reader Z := read_varint 10 0 0.

(** Modelled from the spec: zig-zag maps a signed 64-bit value to an
    unsigned one, small magnitudes to small values. *)
Definition zigzag (n : Z) : Z :=
  Z.lxor (Z.shiftl n 1) (Z.shiftr n 63) mod 2 ^ 64.

(** Modelled from the spec: the inverse map, from the unsigned value back
    to the signed one. *)
Definition unzigzag (u : Z) : Z :=
  Z.lxor (Z.shiftr u 1) (- Z.land u 1).

(** Modelled from the spec: the Integer kind on the wire, zig-zag then
    variable-length. *)
Definition encode_integer (n : Z) : list Z := varint_bytes (zigzag n).

Definition decode_integer : Reader Z := let* u := varint in ret (unzigzag u).

(** A complete group: every byte but the last has its top bit set. *)
Fixpoint is_group (bs : list Z) : bool :=
  match bs with
  | [] => false
  | b :: r =>
      match r with
      | [] => (0 <=? b) && (b <? 128)
      | _ => (128 <=? b) && (b <? 256) && is_group r
      end
  end.

(** The unsigned value a group spells, seven bits per byte. *)
Fixpoint group_value (bs : list Z) : Z :=
  match bs with
  | [] => 0
  | b :: r => Z.land b 127 + 128 * group_value r
  end.

(** The signed 64-bit range. *)
Definition int64 (n : Z) : Prop := - 2 ^ 63 ≤ n < 2 ^ 63.

End Varint.

(** ** The TDF value tree and its wire codec *)
Module Tdf.
Import Wire Varint.

(** Modelled from the spec: the closed enumeration of wire-level kinds. *)
Inductive TdfType : Type :=
| TInteger | TString | TBlob | TStruct | TList | TMap | TUnion
| TObjectType | TObjectId | TFloat | TTriple | TVector3.

Global Instance TdfType_eq_dec : EqDecision TdfType.
Proof. solve_decision. Defined.

#[local] Set Warnings "-register-all".

(** Modelled from the spec: the tagged sum over the kinds.  Tags are the
    packed 32-bit words of the tag codec; strings and blobs are bytes;
    floats are their IEEE-754 bit patterns; an active union carries its
    member byte and one tagged value. *)
Inductive TdfValue : Type :=
| VInteger (n : Z)
| VString (s : list Z)
| VBlob (b : list Z)
| VStruct (fields : list (Z * TdfValue))
| VList (ek : TdfType) (items : list TdfValue)
| VMap (kk vk : TdfType) (entries : list (TdfValue * TdfValue))
| VUnionUnset
| VUnionActive (member : Z) (tag : Z) (v : TdfValue)
| VObjectType (component type_id : Z)
| VObjectId (component type_id entity : Z)
| VFloat (bits : Z)
| VTriple (a b c : Z)
| VVector3 (x y z : Z).

Definition kind_of (v : TdfValue) : TdfType :=
  match v with
  | VInteger _ => TInteger
  | VString _ => TString
  | VBlob _ => TBlob
  | VStruct _ => TStruct
  | VList _ _ => TList
  | VMap _ _ _ => TMap
  | VUnionUnset | VUnionActive _ _ _ => TUnion
  | VObjectType _ _ => TObjectType
  | VObjectId _ _ _ => TObjectId
  | VFloat _ => TFloat
  | VTriple _ _ _ => TTriple
  | VVector3 _ _ _ => TVector3
  end.

(** Modelled from the spec: the kind descriptor byte, the kinds numbered
    in the order of the enumeration (Integer 0, String 1, as in the sample
    encoding of the scenarios). *)
Definition kind_code (k : TdfType) : Z :=
  match k with
  | TInteger => 0 | TString => 1 | TBlob => 2 | TStruct => 3
  | TList => 4 | TMap => 5 | TUnion => 6 | TObjectType => 7
  | TObjectId => 8 | TFloat => 9 | TTriple => 10 | TVector3 => 11
  end.

Definition kind_of_code (b : Z) : option TdfType :=
  match b with
  | 0 => Some TInteger | 1 => Some TString | 2 => Some TBlob | 3 => Some TStruct
  | 4 => Some TList | 5 => Some TMap | 6 => Some TUnion | 7 => Some TObjectType
  | 8 => Some TObjectId | 9 => Some TFloat | 10 => Some TTriple | 11 => Some TVector3
  | _ => None
  end.

(** The sentinel member byte of an unset union. *)
Definition unset_member : Z := 127.

(** *** Encoding *)

(** Fixed-width fields are little-endian. *)
Definition u32_le (x : Z) : list Z :=
  [Z.land x 255; Z.land (Z.shiftr x 8) 255;
   Z.land (Z.shiftr x 16) 255; Z.land (Z.shiftr x 24) 255].

(** The field header: the three bytes of the packed tag, first character
    first, then the kind descriptor. *)
Definition header (tag : Z) (k : TdfType) : list Z :=
  [Z.land (Z.shiftr tag 24) 255; Z.land (Z.shiftr tag 16) 255;
   Z.land (Z.shiftr tag 8) 255; kind_code k].

(** Modelled from the spec: the bare (untagged) wire form of a value. *)
Fixpoint encode_bare (v : TdfValue) : list Z :=
  match v with
  | VInteger n => encode_integer n
  | VString s => varint_bytes (Z.of_nat (length s) + 1) ++ s ++ [0]
  | VBlob b => varint_bytes (Z.of_nat (length b)) ++ b
  | VStruct fields =>
      flat_map (λ f, header f.1 (kind_of f.2) ++ encode_bare f.2) fields ++ [0]
  | VList ek items =>
      kind_code ek :: varint_bytes (Z.of_nat (length items))
        ++ flat_map encode_bare items
  | VMap kk vk entries =>
      kind_code kk :: kind_code vk :: varint_bytes (Z.of_nat (length entries))
        ++ flat_map (λ e, encode_bare e.1 ++ encode_bare e.2) entries
  | VUnionUnset => [unset_member]
  | VUnionActive member tag v => member :: header tag (kind_of v) ++ encode_bare v
  | VObjectType c t => varint_bytes c ++ varint_bytes t
  | VObjectId c t e => varint_bytes c ++ varint_bytes t ++ varint_bytes e
  | VFloat bits => u32_le bits
  | VTriple a b c => u32_le a ++ u32_le b ++ u32_le c
  | VVector3 x y z => u32_le x ++ u32_le y ++ u32_le z
  end.

(** Modelled from the spec: a value on the wire, preceded by its field
    header. *)
Definition encode (tag : Z) (v : TdfValue) : list Z :=
  header tag (kind_of v) ++ encode_bare v.

(** *** Decoding *)

Definition u32 : Reader Z :=
  let* b0 := byte in
  let* b1 := byte in
  let* b2 := byte in
  let* b3 := byte in
  ret (Z.lor b0 (Z.shiftl (Z.lor b1 (Z.shiftl (Z.lor b2 (Z.shiftl b3 8)) 8)) 8)).

(** A kind descriptor; a byte that names no kind is [Malformed] at its own
    offset. *)
Definition kind_byte : Reader TdfType :=
  λ c, match c.2 with
       | [] => inl (Malformed c.1)
       | b :: r =>
           match kind_of_code b with
           | Some k => inr (k, (S c.1, r))
           | None => inl (Malformed c.1)
           end
       end.

(** The terminator of a string; anything else is [Malformed] there. *)
Definition zero_byte : Reader unit :=
  λ c, match c.2 with
       | 0 :: r => inr (tt, (S c.1, r))
       | _ => inl (Malformed c.1)
       end.

(** The rest of a field header once its first byte is known. *)
Definition header_after (b0 : Z) : Reader (Z * TdfType) :=
  let* b1 := byte in
  let* b2 := byte in
  let* k := kind_byte in
  ret (Z.shiftl (Z.lor (Z.shiftl (Z.lor (Z.shiftl b0 8) b1) 8) b2) 8, k).

(** [n] items read by the same reader, in order. *)
Fixpoint times {A} (n : nat) (r : Reader A) : Reader (list A) :=
  match n with
  | O => ret []
  | S n' => let* x := r in let* xs := times n' r in ret (x :: xs)
  end.

(** Modelled from the spec: the strict decoder of a bare value of a known
    kind, and of the field sequence of a struct up to its terminator.  The
    fuel bounds the nesting and the number of fields. *)
Fixpoint decode_bare (fuel : nat) (k : TdfType) : Reader TdfValue :=
  match fuel with
  | O => malformed
  | S f =>
      match k with
      | TInteger => let* n := decode_integer in ret (VInteger n)
      | TString =>
          let* len := varint in
          if len =? 0 then malformed
          else
            let* s := bytes (Z.to_nat (len - 1)) in
            let* _ := zero_byte in
            ret (VString s)
      | TBlob =>
          let* len := varint in
          let* b := bytes (Z.to_nat len) in
          ret (VBlob b)
      | TStruct => let* fs := decode_fields f in ret (VStruct fs)
      | TList =>
          let* ek := kind_byte in
          let* n := varint in
          let* items := times (Z.to_nat n) (decode_bare f ek) in
          ret (VList ek items)
      | TMap =>
          let* kk := kind_byte in
          let* vk := kind_byte in
          let* n := varint in
          let* entries :=
            times (Z.to_nat n)
              (let* key := decode_bare f kk in
               let* val := decode_bare f vk in
               ret (key, val)) in
          ret (VMap kk vk entries)
      | TUnion =>
          let* m := byte in
          if m =? unset_member then ret VUnionUnset
          else
            let* b0 := byte in
            let* h := header_after b0 in
            let* v := decode_bare f h.2 in
            ret (VUnionActive m h.1 v)
      | TObjectType =>
          let* c := varint in
          let* t := varint in
          ret (VObjectType c t)
      | TObjectId =>
          let* c := varint in
          let* t := varint in
          let* e := varint in
          ret (VObjectId c t e)
      | TFloat => let* bits := u32 in ret (VFloat bits)
      | TTriple =>
          let* a := u32 in
          let* b := u32 in
          let* c := u32 in
          ret (VTriple a b c)
      | TVector3 =>
          let* x := u32 in
          let* y := u32 in
          let* z := u32 in
          ret (VVector3 x y z)
      end
  end
with decode_fields (fuel : nat) : Reader (list (Z * TdfValue)) :=
  match fuel with
  | O => malformed
  | S f =>
      let* b0 := byte in
      if b0 =? 0 then ret []
      else
        let* h := header_after b0 in
        let* v := decode_bare f h.2 in
        let* rest := decode_fields f in
        ret ((h.1, v) :: rest)
  end.

(** Modelled from the spec: decoding one tagged value from a whole buffer;
    bytes left over after the value are an error at their offset. *)
Definition decode (bs : list Z) : DecodeError + (Z * TdfValue) :=
  let fuel := (2 * length bs)%nat in
  match (let* b0 := byte in
         let* h := header_after b0 in
         let* v := decode_bare fuel h.2 in
         ret (h.1, v)) (0%nat, bs) with
  | inl e => inl e
  | inr (tv, (_, [])) => inr tv
  | inr (_, (pos, _ :: _)) => inl (Malformed pos)
  end.

(** *** The invariants of the data model *)

Definition u16 (x : Z) : Prop := 0 ≤ x < 2 ^ 16.
Definition u32_range (x : Z) : Prop := 0 ≤ x < 2 ^ 32.
Definition u64 (x : Z) : Prop := 0 ≤ x < 2 ^ 64.

(** Modelled from the spec: what makes a tree a TDF value.  Integers are
    signed 64-bit; strings and blobs are bytes; the tags of a struct are
    packed labels, unique within the struct; the elements of a list share
    the declared element kind; the keys and the values of a map share the
    declared kinds and no key occurs twice; an active union has a member
    byte other than the sentinel; the numeric fields fit their widths. *)
Fixpoint valid (v : TdfValue) : Prop :=
  match v with
  | VInteger n => int64 n
  | VString s => Forall is_byte s ∧ u64 (Z.of_nat (length s) + 1)
  | VBlob b => Forall is_byte b ∧ u64 (Z.of_nat (length b))
  | VStruct fields =>
      NoDup fields.*1 ∧
      foldr (λ f acc, (Tag.packed f.1 ∧ valid f.2) ∧ acc) True fields
  | VList ek items =>
      u64 (Z.of_nat (length items)) ∧
      foldr (λ x acc, (kind_of x = ek ∧ valid x) ∧ acc) True items
  | VMap kk vk entries =>
      u64 (Z.of_nat (length entries)) ∧ NoDup entries.*1 ∧
      foldr (λ e acc, ((kind_of e.1 = kk ∧ valid e.1) ∧
                       (kind_of e.2 = vk ∧ valid e.2)) ∧ acc) True entries
  | VUnionUnset => True
  | VUnionActive member tag v =>
      is_byte member ∧ member ≠ unset_member ∧ Tag.packed tag ∧ valid v
  | VObjectType c t => u16 c ∧ u16 t
  | VObjectId c t e => u16 c ∧ u16 t ∧ u64 e
  | VFloat bits => u32_range bits
  | VTriple a b c => u32_range a ∧ u32_range b ∧ u32_range c
  | VVector3 x y z => u32_range x ∧ u32_range y ∧ u32_range z
  end.

(** Modelled from the spec: deep comparison.  The fields of a struct and
    the entries of a map compare as collections, in any order; the
    elements of a list compare position by position. *)
Inductive equiv : TdfValue → TdfValue → Prop :=
| equiv_integer n : equiv (VInteger n) (VInteger n)
| equiv_string s : equiv (VString s) (VString s)
| equiv_blob b : equiv (VBlob b) (VBlob b)
| equiv_struct fs gs gs' :
    gs' ≡ₚ gs →
    Forall2 (λ f g, f.1 = g.1 ∧ equiv f.2 g.2) fs gs' →
    equiv (VStruct fs) (VStruct gs)
| equiv_list ek xs ys :
    Forall2 equiv xs ys → equiv (VList ek xs) (VList ek ys)
| equiv_map kk vk es fs fs' :
    fs' ≡ₚ fs →
    Forall2 (λ e f, equiv e.1 f.1 ∧ equiv e.2 f.2) es fs' →
    equiv (VMap kk vk es) (VMap kk vk fs)
| equiv_union_unset : equiv VUnionUnset VUnionUnset
| equiv_union_active m t v w :
    equiv v w → equiv (VUnionActive m t v) (VUnionActive m t w)
| equiv_object_type c t : equiv (VObjectType c t) (VObjectType c t)
| equiv_object_id c t e : equiv (VObjectId c t e) (VObjectId c t e)
| equiv_float bits : equiv (VFloat bits) (VFloat bits)
| equiv_triple a b c : equiv (VTriple a b c) (VTriple a b c)
| equiv_vector3 x y z : equiv (VVector3 x y z) (VVector3 x y z).

(** The fuel a value asks of the decoder: one unit per value and per
    field, and one for the end of a field sequence. *)
Fixpoint weight (v : TdfValue) : nat :=
  match v with
  | VStruct fields => 2 + sum_list_with (λ f, 1 + weight f.2) fields
  | VList _ items => 1 + sum_list_with weight items
  | VMap _ _ entries => 1 + sum_list_with (λ e, weight e.1 + weight e.2) entries
  | VUnionActive _ _ v => 1 + weight v
  | _ => 1
  end%nat.

(** Induction over the value tree, with the hypothesis available for every
    value nested in a struct, a list or a map. *)
Section NestedInduction.
Variable P : TdfValue → Prop.
Hypothesis HInteger : ∀ n, P (VInteger n).
Hypothesis HString : ∀ s, P (VString s).
Hypothesis HBlob : ∀ b, P (VBlob b).
Hypothesis HStruct : ∀ fs, Forall (λ f, P f.2) fs → P (VStruct fs).
Hypothesis HList : ∀ ek items, Forall P items → P (VList ek items).
Hypothesis HMap : ∀ kk vk es, Forall (λ e, P e.1 ∧ P e.2) es → P (VMap kk vk es).
Hypothesis HUnset : P VUnionUnset.
Hypothesis HActive : ∀ m t v, P v → P (VUnionActive m t v).
Hypothesis HObjectType : ∀ c t, P (VObjectType c t).
Hypothesis HObjectId : ∀ c t e, P (VObjectId c t e).
Hypothesis HFloat : ∀ bits, P (VFloat bits).
Hypothesis HTriple : ∀ a b c, P (VTriple a b c).
Hypothesis HVector3 : ∀ x y z, P (VVector3 x y z).

Fixpoint TdfValue_nested_ind (v : TdfValue) : P v :=
  match v with
  | VInteger n => HInteger n
  | VString s => HString s
  | VBlob b => HBlob b
  | VStruct fs =>
      HStruct fs
        ((fix go (l : list (Z * TdfValue)) : Forall (λ f, P f.2) l :=
            match l with
            | [] => List.Forall_nil _
            | f :: r => List.Forall_cons _ f r (TdfValue_nested_ind f.2) (go r)
            end) fs)
  | VList ek items =>
      HList ek items
        ((fix go (l : list TdfValue) : Forall P l :=
            match l with
            | [] => List.Forall_nil _
            | x :: r => List.Forall_cons _ x r (TdfValue_nested_ind x) (go r)
            end) items)
  | VMap kk vk es =>
      HMap kk vk es
        ((fix go (l : list (TdfValue * TdfValue)) : Forall (λ e, P e.1 ∧ P e.2) l :=
            match l with
            | [] => List.Forall_nil _
            | e :: r =>
                List.Forall_cons _ e r
                  (conj (TdfValue_nested_ind e.1) (TdfValue_nested_ind e.2)) (go r)
            end) es)
  | VUnionUnset => HUnset
  | VUnionActive m t v => HActive m t v (TdfValue_nested_ind v)
  | VObjectType c t => HObjectType c t
  | VObjectId c t e => HObjectId c t e
  | VFloat bits => HFloat bits
  | VTriple a b c => HTriple a b c
  | VVector3 x y z => HVector3 x y z
  end.

End NestedInduction.

End Tdf.

(** ** Frames, sessions and the dispatcher *)
Module Dispatch.
Import Tdf.

(** Modelled from the spec: the frame, the session and the dispatcher
    belong to the server classes, which are not in the source tree.  The
    message kinds and the named error codes are those of the frame codec
    and of the error taxonomy; the numbers behind the named codes are not
    fixed by the design and are left abstract. *)
Inductive MessageKind : Type :=
| Request | Response | Notification | Error | Ping | Pong.

(** Modelled from the spec: the error field of a frame: none, one of the
    named dispatch errors, or a code defined by a handler. *)
Inductive ErrorCode : Type :=
| NoError
| CommandNotFound
| HandlerAlreadyRegistered
| UnsupportedComponent
| HandlerCode (code : Z).

(** Modelled from the spec: the header fields that route a frame, and its
    payload, one struct (its fields). *)
Record Frame : Type := {
  component : Z;
  command : Z;
  error : ErrorCode;
  kind : MessageKind;
  flags : Z;
  msg_id : Z;
  payload : list (Z * TdfValue)
}.

(** Modelled from the spec: the close state of a session. *)
Inductive CloseState : Type := Open | Draining | Closed.

(** Modelled from the spec: the part of a session the dispatcher touches:
    its close state, the message ids awaiting a reply and the components
    it subscribed to. *)
Record Session : Type := {
  close_state : CloseState;
  pending : gset Z;
  subscribed : gset Z
}.

(** Modelled from the spec: what a handler returns. *)
Inductive HandlerResult : Type :=
| HResponse (body : list (Z * TdfValue))
| HErrorCode (code : Z) (body : option (list (Z * TdfValue)))
| HNotifications (frames : list Frame)
| HDeferred (future : nat).

(** Modelled from the spec: a handler is invoked with the session and the
    decoded struct. *)
Definition Handler : Type := Session → list (Z * TdfValue) → HandlerResult.

(** Modelled from the spec: the registry maps a (component, command) pair
    to at most one handler; registering over an entry is refused unless
    replacement is allowed. *)
Definition register (replace : bool) (key : Z * Z) (h : Handler)
    (reg : gmap (Z * Z) Handler) : ErrorCode + gmap (Z * Z) Handler :=
  match reg !! key with
  | Some _ => if replace then inr (<[key := h]> reg) else inl HandlerAlreadyRegistered
  | None => inr (<[key := h]> reg)
  end.

(** A reply to [f]: same routing fields and message id. *)
Definition reply (f : Frame) (k : MessageKind) (e : ErrorCode)
    (body : list (Z * TdfValue)) : Frame :=
  {| component := component f; command := command f; error := e; kind := k;
     flags := 0; msg_id := msg_id f; payload := body |}.

(** The pending slot of message [id], if there is one, is completed. *)
Definition complete (id : Z) (s : Session) : Session :=
  {| close_state := close_state s; pending := pending s ∖ {[id]};
     subscribed := subscribed s |}.

(** Modelled from the spec: one inbound frame through the dispatcher: the
    frames emitted to the peer, in order, and the session afterwards.  A
    ping is answered without a handler; a request goes to its handler, or
    is answered with [CommandNotFound]; a response or an error completes
    the pending slot of its message id, if any. *)
Definition dispatch (reg : gmap (Z * Z) Handler) (s : Session) (f : Frame)
    : list Frame * Session :=
  match kind f with
  | Ping => ([reply f Pong NoError []], s)
  | Request =>
      match reg !! (component f, command f) with
      | None => ([reply f Error CommandNotFound []], s)
      | Some h =>
          match h s (payload f) with
          | HResponse body => ([reply f Response NoError body], s)
          | HErrorCode code body =>
              ([reply f Error (HandlerCode code) (default [] body)], s)
          | HNotifications frames => (frames, s)
          | HDeferred _ => ([], s)
          end
      end
  | Response | Error => ([], complete (msg_id f) s)
  | Notification | Pong => ([], s)
  end.

End Dispatch.

(** ** main.cpp: the accessors of [Application] *)
Module AppAccess.
Import App.


(** [GetSporeNet()] returns [*mSporeNet]; [None] stands for the dereference
    of an empty pointer. *)
Definition GetSporeNet (app : Application) : option unit := mSporeNet app.

(** The pointer accessors return [m....get()]; [None] is the null pointer. *)
Definition get_game_api (app : Application) : option GameAPI := mGameAPI app.
Definition get_redirector_server (app : Application) : option BlazeServer :=
  mRedirectorServer app.
Definition get_blaze_server (app : Application) : option BlazeServer :=
  mBlazeServer app.
Definition get_http_server (app : Application) : option HttpServer := mHttpServer app.
Definition get_qos_server (app : Application) : option HttpServer := mQosServer app.

(** The object behind [Application::GetApp()] in a world, if there is one. *)
Definition the_app (w : World) : option Application :=
  a ← GetApp w; heap w !! a.

End AppAccess.

(** ** Bit-field arithmetic shared by the codecs *)
Module Bits.

(** Or-ing a value below [2^k] under a value shifted left by [k] places
    adds the two. *)
Lemma lor_shiftl_add (x y k : Z) :
  0 ≤ k → 0 ≤ y < 2 ^ k → Z.lor (Z.shiftl x k) y = x * 2 ^ k + y.
Proof.
  intros Hk Hy.
  assert (Z.land (Z.shiftl x k) y = 0) as Hdisj.
  { apply Z.bits_inj'. intros n Hn. rewrite Z.land_spec, Z.bits_0.
    destruct (Z.lt_ge_cases n k) as [Hlt|Hge].
    - rewrite Z.shiftl_spec_low by exact Hlt. reflexivity.
    - rewrite <- (Z.mod_small y (2 ^ k)) by exact Hy.
      rewrite Z.mod_pow2_bits_high by lia. apply andb_false_r. }
  rewrite <- Z.lxor_lor by exact Hdisj.
  rewrite <- Z.add_nocarry_lxor by exact Hdisj.
  rewrite Z.shiftl_mul_pow2 by exact Hk. reflexivity.
Qed.

(** Reading a field of [w] bits at bit [k]. *)
Lemma field_read (v k w : Z) :
  0 ≤ k → 0 ≤ w → Z.land (Z.shiftr v k) (Z.ones w) = (v / 2 ^ k) mod 2 ^ w.
Proof.
  intros Hk Hw. rewrite Z.land_ones by exact Hw.
  rewrite Z.shiftr_div_pow2 by exact Hk. reflexivity.
Qed.

End Bits.

(** ** Properties of the process shell *)
Module AppFacts.
Import App.

Lemma OnInit_ports cfg this w :
  is_Some (heap w !! this) →
  let w1 := (OnInit cfg this w).2 in
  blaze_port_of w1 this = Some 10041 ∧ redirector_port_of w1 this = Some 42127.
Proof.
  intros [app Happ]. unfold blaze_port_of, redirector_port_of, OnInit; simpl.
  rewrite lookup_alter_eq. simpl. rewrite Happ. done.
Qed.

Lemma started_app cfg :
  is_Some (heap (InitApp 1 ["recap_server"] World_start).2 !! (started cfg).1).
Proof.
  unfold started, InitApp; simpl. rewrite lookup_insert_eq. by eexists.
Qed.

(** C1 (as the code has it): whatever the configuration holds, the main
    Blaze endpoint is constructed on port 10041 and the redirector on port
    42127, and these are the ports logged as listening. *)
Theorem OnInit_ports_fixed (cfg : Config) :
  let '(app, w) := started cfg in
  blaze_port_of w app = Some 10041 ∧
  redirector_port_of w app = Some 42127 ∧
  trace w = OnInit_trace.
Proof.
  pose proof (started_app cfg) as Hs.
  unfold started in *. destruct (InitApp 1 ["recap_server"] World_start) as [a w0] eqn:E.
  simpl in Hs.
  destruct (OnInit_ports cfg a w0 Hs) as [Hb Hr].
  split; [exact Hb|]. split; [exact Hr|].
  unfold InitApp in E; simpl in E. injection E as <- <-. reflexivity.
Qed.

(** C1 (as worded) fails: a configuration that asks for ports 8080 and 9090
    still yields listeners on 10041 and 42127. *)
Lemma OnInit_ignores_listen_keys :
  let cfg : Config := {[ "listen.blaze" := 8080; "listen.redirector" := 9090 ]} in
  cfg !! "listen.blaze" = Some 8080 ∧
  cfg !! "listen.redirector" = Some 9090 ∧
  blaze_port_of (started cfg).2 (started cfg).1 = Some 10041 ∧
  redirector_port_of (started cfg).2 (started cfg).1 = Some 42127 ∧
  ¬ ports_follow_config cfg.
Proof.
  intros cfg.
  assert (cfg !! "listen.blaze" = Some 8080) as Hl by (by vm_compute).
  assert (blaze_port_of (started cfg).2 (started cfg).1 = Some 10041) as Hb.
  { pose proof (started_app cfg) as Hs. unfold started in *.
    destruct (InitApp 1 ["recap_server"] World_start) as [a w0]. simpl in Hs.
    apply (OnInit_ports cfg a w0 Hs). }
  assert (redirector_port_of (started cfg).2 (started cfg).1 = Some 42127) as Hr.
  { pose proof (started_app cfg) as Hs. unfold started in *.
    destruct (InitApp 1 ["recap_server"] World_start) as [a w0]. simpl in Hs.
    apply (OnInit_ports cfg a w0 Hs). }
  split; [exact Hl|]. split; [by vm_compute|]. split; [exact Hb|]. split; [exact Hr|].
  unfold ports_follow_config. destruct (started cfg) as [a w]. simpl in Hb.
  intros [Hc _]. rewrite Hb, Hl in Hc. discriminate.
Qed.

(** The log of a whole run of [main], whatever the world it starts in. *)
Lemma main_trace cfg ev argc argv w :
  let '(e, w1) := main cfg ev argc argv w in
  match ev with
  | Signalled _ =>
      e = Exit 0 ∧ trace w1 = trace w ++ OnInit_trace ++ [AIoStop] ++ OnExit_trace
  | OutOfWork =>
      e = Exit 0 ∧ trace w1 = trace w ++ OnInit_trace ++ OnExit_trace
  | Thrown (std_exception what) =>
      e = Exit 0 ∧ trace w1 = trace w ++ OnInit_trace ++ [AStderr what] ++ OnExit_trace
  | Thrown foreign_exception =>
      e = Terminate foreign_exception ∧ trace w1 = trace w ++ OnInit_trace
  end.
Proof.
  unfold main, InitApp.
  destruct (sApplication w) as [a|]; destruct ev as [s| |[what|]]; simpl;
    (split; [reflexivity|]); rewrite <- ?app_assoc; reflexivity.
Qed.

(** After a run that started from a fresh process, the six members that
    [OnExit] resets are empty. *)
Lemma main_teardown cfg ev argc argv code :
  (main cfg ev argc argv World_start).1 = Exit code →
  let w1 := (main cfg ev argc argv World_start).2 in
  ∃ a app, GetApp w1 = Some a ∧ heap w1 !! a = Some app ∧
    mGameAPI app = None ∧ mRedirectorServer app = None ∧ mBlazeServer app = None ∧
    mHttpServer app = None ∧ mQosServer app = None ∧ mSporeNet app = None.
Proof.
  unfold main, InitApp, GetApp.
  destruct ev as [s| |[what|]]; simpl; try discriminate; intros _.
  all: eexists _, _; (split; [reflexivity|]).
  all: rewrite !lookup_alter_eq, lookup_insert_eq; simpl.
  all: repeat split; reflexivity.
Qed.

(** C4 (as the code has it): when SIGINT or SIGTERM arrives, the handler
    stops the io service at once, [Run] returns, and [OnExit] releases the
    game API, the redirector, the Blaze server, the two HTTP servers and
    SporeNet, in that order; [main] then exits with code 0.  Nothing is sent
    to the sessions and nothing is waited for in between. *)
Theorem signal_stops_then_resets (cfg : Config) (s : signal) (argc : Z)
    (argv : list string) :
  let '(e, w) := main cfg (Signalled s) argc argv World_start in
  e = Exit 0 ∧
  trace w = OnInit_trace ++ [AIoStop] ++ OnExit_trace ∧
  trace w ≫= reads_as =
    [StopAccepting; ForceClose; ForceClose; ForceClose; ForceClose].
Proof.
  pose proof (main_trace cfg (Signalled s) argc argv World_start) as H.
  destruct (main cfg (Signalled s) argc argv World_start) as [e w].
  destruct H as [-> Ht]. split; [reflexivity|].
  rewrite Ht. split; reflexivity.
Qed.

(** C4 (as worded) fails: on SIGTERM the log of the run holds no drain
    broadcast and no wait, so the four steps do not occur in order. *)
Lemma sigterm_shutdown_not_graceful :
  let t := trace (main ∅ (Signalled SIGTERM) 1 ["recap_server"] World_start).2 in
  t = OnInit_trace ++ [AIoStop] ++ OnExit_trace ∧ ¬ graceful_shutdown t.
Proof.
  pose proof (main_trace ∅ (Signalled SIGTERM) 1 ["recap_server"] World_start) as H.
  destruct (main ∅ (Signalled SIGTERM) 1 ["recap_server"] World_start) as [e w].
  destruct H as [_ Ht]. simpl. rewrite Ht. split; [reflexivity|].
  unfold graceful_shutdown. intros Hsub.
  assert (BroadcastDrain ∈ (([] ++ OnInit_trace ++ [AIoStop] ++ OnExit_trace) ≫= reads_as))
    as Hin.
  { eapply sublist_submseteq, elem_of_submseteq in Hsub; [exact Hsub|].
    apply list_elem_of_In; simpl; tauto. }
  apply list_elem_of_In in Hin. simpl in Hin.
  repeat (destruct Hin as [Hin|Hin]; [discriminate Hin|]). exact Hin.
Qed.

(** C5: an exception derived from [std::exception] that leaves the event
    loop is caught by [Run], its text goes to the error stream, [OnExit]
    runs in full and [main] returns 0. *)
Theorem std_exception_is_survived (cfg : Config) (what : string) (argc : Z)
    (argv : list string) :
  let '(e, w) := main cfg (Thrown (std_exception what)) argc argv World_start in
  e = Exit 0 ∧
  trace w = OnInit_trace ++ [AStderr what] ++ OnExit_trace ∧
  ∃ a app, GetApp w = Some a ∧ heap w !! a = Some app ∧
    mGameAPI app = None ∧ mRedirectorServer app = None ∧ mBlazeServer app = None ∧
    mHttpServer app = None ∧ mQosServer app = None ∧ mSporeNet app = None.
Proof.
  pose proof (main_trace cfg (Thrown (std_exception what)) argc argv World_start) as H.
  pose proof (main_teardown cfg (Thrown (std_exception what)) argc argv 0) as Hd.
  destruct (main cfg (Thrown (std_exception what)) argc argv World_start) as [e w].
  destruct H as [-> Ht]. split; [reflexivity|]. split; [exact Ht|].
  apply Hd. reflexivity.
Qed.

Lemma InitApp_again argc argv a w :
  sApplication w = Some a → InitApp argc argv w = (a, w).
Proof. intros H. unfold InitApp. by rewrite H. Qed.

Lemma InitApp_calls_again calls a w :
  sApplication w = Some a →
  InitApp_calls calls w = (replicate (length calls) a, w).
Proof.
  intros H. induction calls as [|[argc argv] rest IH]; simpl; [reflexivity|].
  rewrite (InitApp_again _ _ _ _ H), IH. reflexivity.
Qed.

(** C9: on a process whose static pointer is still null, the first
    [InitApp] allocates one [Application] at an address that was free and
    stores it in [sApplication]; any further sequence of calls, whatever
    the arguments, returns that address each time and leaves the heap and
    the pointer as they were; [GetApp] returns the same address. *)
Theorem InitApp_idempotent (w : World) (argc : Z) (argv : list string)
    (calls : list (Z * list string)) :
  sApplication w = None →
  let '(a, w1) := InitApp argc argv w in
  heap w !! a = None ∧
  heap w1 = <[a := Application_new]> (heap w) ∧
  size (heap w1) = S (size (heap w)) ∧
  InitApp_calls calls w1 = (replicate (length calls) a, w1) ∧
  GetApp w1 = Some a.
Proof.
  intros Hnull. unfold InitApp. rewrite Hnull. simpl.
  assert (heap w !! fresh (dom (heap w)) = None) as Hfree.
  { apply not_elem_of_dom, is_fresh. }
  split; [exact Hfree|]. split; [reflexivity|].
  split; [by apply map_size_insert_None|].
  split; [|reflexivity].
  by apply InitApp_calls_again.
Qed.

Lemma InitApp_idempotent_witness :
  sApplication World_start = None ∧
  InitApp_calls [(3, ["a"; "b"; "c"]); (0, [])] (InitApp 1 ["recap_server"] World_start).2
  = ([(InitApp 1 ["recap_server"] World_start).1; (InitApp 1 ["recap_server"] World_start).1],
     (InitApp 1 ["recap_server"] World_start).2).
Proof.
  split; [reflexivity|].
  pose proof (InitApp_idempotent World_start 1 ["recap_server"]
                [(3, ["a"; "b"; "c"]); (0, [])] eq_refl) as H.
  destruct (InitApp 1 ["recap_server"] World_start) as [a w1].
  destruct H as (_ & _ & _ & H & _). exact H.
Defined.


End AppFacts.

(** ** Properties of the message records *)
Module BlazeFacts.
Import Blaze.

(** C10: a default-constructed [ClientMessage] has target (0, 0, 0) and
    flags, stat, tag and type 0, and keeps these values when only its
    attributes are filled in. *)
Theorem ClientMessage_default_zero (a : gmap Z string) :
  let m := ClientMessage_default in
  let m' := set_attributes a ClientMessage_default in
  target m = {| oid_component := 0; oid_type := 0; oid_id := 0 |} ∧
  flags m = 0 ∧ stat m = 0 ∧ tag m = 0 ∧ type m = 0 ∧
  attributes m' = a ∧ target m' = target m ∧
  flags m' = 0 ∧ stat m' = 0 ∧ tag m' = 0 ∧ type m' = 0.
Proof. simpl. repeat split. Qed.

End BlazeFacts.

(** ** Properties of the tag codec *)
Module TagFacts.
Import Tag.

Lemma code_of_char c :
  in_alphabet c = true →
  ∃ k, code_of c = Some k ∧ 1 ≤ k ≤ 38 ∧ ∀ filler, char_of filler k = c.
Proof.
  unfold in_alphabet, code_of, char_of.
  pose proof (nat_ascii_bounded c) as Hb.
  pose proof (ascii_nat_embedding c) as He.
  set (n := Z.of_nat (nat_of_ascii c)) in *.
  assert (nat_of_ascii c = Z.to_nat n) as Hn by (subst n; lia).
  intros Hin.
  destruct ((65 <=? n) && (n <=? 90)) eqn:E1.
  { exists (n - 64). split; [reflexivity|]. split; [lia|]. intros filler.
    replace ((1 <=? n - 64) && (n - 64 <=? 26)) with true by lia.
    replace (n - 64 + 64) with n by lia. by rewrite <- Hn. }
  destruct ((48 <=? n) && (n <=? 57)) eqn:E2.
  { exists (n - 21). split; [reflexivity|]. split; [lia|]. intros filler.
    replace ((1 <=? n - 21) && (n - 21 <=? 26)) with false by lia.
    replace ((27 <=? n - 21) && (n - 21 <=? 36)) with true by lia.
    replace (n - 21 + 21) with n by lia. by rewrite <- Hn. }
  destruct (n =? 95) eqn:E3.
  { exists 37. split; [reflexivity|]. split; [lia|]. intros filler. simpl.
    rewrite <- He, Hn. replace n with 95 by lia. reflexivity. }
  destruct (n =? 32) eqn:E4.
  { exists 38. split; [reflexivity|]. split; [lia|]. intros filler. simpl.
    rewrite <- He, Hn. replace n with 32 by lia. reflexivity. }
  simpl in Hin. discriminate.
Qed.

Lemma code_of_None c : code_of c = None ↔ in_alphabet c = false.
Proof.
  unfold in_alphabet, code_of.
  destruct ((65 <=? _) && _); [simpl; split; discriminate|].
  destruct ((48 <=? _) && _); [simpl; split; discriminate|].
  destruct (_ =? 95); [simpl; split; discriminate|].
  destruct (_ =? 32); simpl; split; (discriminate || reflexivity).
Qed.

Lemma char_of_range filler k :
  in_alphabet (char_of filler k) = true ∨ char_of filler k = filler.
Proof.
  unfold char_of.
  destruct ((1 <=? k) && (k <=? 26)) eqn:E1.
  { left. unfold in_alphabet. rewrite nat_ascii_embedding by lia.
    replace (Z.of_nat (Z.to_nat (k + 64))) with (k + 64) by lia.
    replace ((65 <=? k + 64) && (k + 64 <=? 90)) with true by lia. reflexivity. }
  destruct ((27 <=? k) && (k <=? 36)) eqn:E2.
  { left. unfold in_alphabet. rewrite nat_ascii_embedding by lia.
    replace (Z.of_nat (Z.to_nat (k + 21))) with (k + 21) by lia.
    replace ((48 <=? k + 21) && (k + 21 <=? 57)) with true by lia.
    by rewrite orb_true_r. }
  destruct (k =? 37); [left; reflexivity|].
  destruct (k =? 38); [left; reflexivity|].
  right; reflexivity.
Qed.

Lemma char_of_filler filler k : ¬ 1 ≤ k ≤ 38 → char_of filler k = filler.
Proof.
  intros Hk. unfold char_of.
  replace ((1 <=? k) && (k <=? 26)) with false by lia.
  replace ((27 <=? k) && (k <=? 36)) with false by lia.
  replace (k =? 37) with false by lia.
  replace (k =? 38) with false by lia. reflexivity.
Qed.

Lemma layout_value a b c d :
  0 ≤ a < 64 → 0 ≤ b < 64 → 0 ≤ c < 64 → 0 ≤ d < 64 →
  layout a b c d = (((a * 64 + b) * 64 + c) * 64 + d) * 256.
Proof.
  intros Ha Hb Hc Hd. unfold layout.
  rewrite !(Bits.lor_shiftl_add _ _ 6) by lia.
  rewrite Z.shiftl_mul_pow2 by lia. reflexivity.
Qed.

Lemma layout_fields a b c d :
  0 ≤ a < 64 → 0 ≤ b < 64 → 0 ≤ c < 64 → 0 ≤ d < 64 →
  let t := layout a b c d in
  field t 26 = a ∧ field t 20 = b ∧ field t 14 = c ∧ field t 8 = d ∧
  0 ≤ t < 2 ^ 32 ∧ t mod 256 = 0 ∧ t / 2 ^ 24 = a * 4 + b / 16.
Proof.
  intros Ha Hb Hc Hd. unfold field. simpl. rewrite layout_value by assumption.
  change 63 with (Z.ones 6). rewrite !Bits.field_read by lia.
  change (2 ^ 26) with 67108864. change (2 ^ 20) with 1048576.
  change (2 ^ 14) with 16384. change (2 ^ 8) with 256. change (2 ^ 6) with 64.
  change (2 ^ 32) with 4294967296. change (2 ^ 24) with 16777216.
  repeat split; try (Z.div_mod_to_equations; lia).
Qed.

Lemma pack_inr l :
  Forall (λ c, in_alphabet c = true) (chars l) →
  ∃ a b c d, pack l = inr (layout a b c d) ∧
    (1 ≤ a ≤ 38 ∧ 1 ≤ b ≤ 38 ∧ 1 ≤ c ≤ 38 ∧ 1 ≤ d ≤ 38) ∧
    ∀ filler, char_of filler a = l0 l ∧ char_of filler b = l1 l ∧
              char_of filler c = l2 l ∧ char_of filler d = l3 l.
Proof.
  unfold chars. intros H.
  apply Forall_cons in H as [H0 H]. apply Forall_cons in H as [H1 H].
  apply Forall_cons in H as [H2 H]. apply Forall_cons in H as [H3 _].
  destruct (code_of_char _ H0) as (a & Ea & Ha & Ca).
  destruct (code_of_char _ H1) as (b & Eb & Hb & Cb).
  destruct (code_of_char _ H2) as (c & Ec & Hc & Cc).
  destruct (code_of_char _ H3) as (d & Ed & Hd & Cd).
  exists a, b, c, d. unfold pack. rewrite Ea, Eb, Ec, Ed.
  split; [reflexivity|]. split; [lia|]. intros filler. auto.
Qed.

(** C3: for every label of four alphabet characters, [pack] succeeds with a
    32-bit tag and [unpack] of that tag is the label, whatever the filler. *)
Theorem unpack_pack (filler : ascii) (l : Label) :
  Forall (λ c, in_alphabet c = true) (chars l) →
  ∃ t, pack l = inr t ∧ 0 ≤ t < 2 ^ 32 ∧ unpack filler t = l.
Proof.
  intros H. destruct (pack_inr l H) as (a & b & c & d & Hp & Hr & Hc).
  exists (layout a b c d). split; [exact Hp|].
  destruct (layout_fields a b c d) as (Fa & Fb & Fc & Fd & Hrange & _); try lia.
  split; [exact Hrange|].
  unfold unpack. rewrite Fa, Fb, Fc, Fd.
  destruct (Hc filler) as (-> & -> & -> & ->). by destruct l.
Qed.

Lemma unpack_pack_witness :
  let l := {| l0 := "P"; l1 := "N"; l2 := "A"; l3 := "M" |} in
  Forall (λ c, in_alphabet c = true) (chars l) ∧
  ∃ t, pack l = inr t ∧ 0 ≤ t < 2 ^ 32 ∧ unpack "?" t = l.
Proof.
  split.
  - repeat constructor.
  - apply (unpack_pack "?" {| l0 := "P"; l1 := "N"; l2 := "A"; l3 := "M" |}).
    repeat constructor.
Defined.

(** C7: [unpack] is defined on every integer and each character it returns
    is an alphabet character or the filler, the filler standing wherever a
    field's bits name no character; [pack] fails, with [MalformedTag],
    exactly when one of the four characters is outside the alphabet. *)
Theorem unpack_total_pack_strict (filler : ascii) :
  (∀ t : Z, ∀ c, c ∈ chars (unpack filler t) →
     in_alphabet c = true ∨ c = filler) ∧
  (∀ t : Z,
     (¬ 1 ≤ field t 26 ≤ 38 → l0 (unpack filler t) = filler) ∧
     (¬ 1 ≤ field t 20 ≤ 38 → l1 (unpack filler t) = filler) ∧
     (¬ 1 ≤ field t 14 ≤ 38 → l2 (unpack filler t) = filler) ∧
     (¬ 1 ≤ field t 8 ≤ 38 → l3 (unpack filler t) = filler)) ∧
  (∀ l : Label, pack l = inl MalformedTag ↔
     ∃ c, c ∈ chars l ∧ in_alphabet c = false) ∧
  (∀ l : Label, (∃ t, pack l = inr t) ↔
     Forall (λ c, in_alphabet c = true) (chars l)).
Proof.
  split; [|split; [|split]].
  - intros t c Hc. unfold unpack, chars in Hc. simpl in Hc.
    apply list_elem_of_In in Hc. simpl in Hc.
    destruct Hc as [<-|[<-|[<-|[<-|[]]]]]; apply char_of_range.
  - intros t. repeat split; intros Hk; by apply char_of_filler.
  - intros l. unfold pack, chars. split.
    + destruct (code_of (l0 l)) eqn:E0; [|intros _; exists (l0 l); split;
        [apply list_elem_of_In; simpl; tauto | by apply code_of_None]].
      destruct (code_of (l1 l)) eqn:E1; [|intros _; exists (l1 l); split;
        [apply list_elem_of_In; simpl; tauto | by apply code_of_None]].
      destruct (code_of (l2 l)) eqn:E2; [|intros _; exists (l2 l); split;
        [apply list_elem_of_In; simpl; tauto | by apply code_of_None]].
      destruct (code_of (l3 l)) eqn:E3; [|intros _; exists (l3 l); split;
        [apply list_elem_of_In; simpl; tauto | by apply code_of_None]].
      discriminate.
    + intros (c & Hc & Hout). apply code_of_None in Hout.
      apply list_elem_of_In in Hc. simpl in Hc.
      destruct Hc as [<-|[<-|[<-|[<-|[]]]]]; rewrite Hout;
        repeat (destruct (code_of _)); reflexivity.
  - intros l. split.
    + intros [t Ht]. unfold pack in Ht. unfold chars.
      destruct (code_of (l0 l)) eqn:E0; [|discriminate].
      destruct (code_of (l1 l)) eqn:E1; [|discriminate].
      destruct (code_of (l2 l)) eqn:E2; [|discriminate].
      destruct (code_of (l3 l)) eqn:E3; [|discriminate].
      repeat constructor;
        match goal with |- in_alphabet ?c = true =>
          destruct (in_alphabet c) eqn:E; [reflexivity|];
          apply code_of_None in E; congruence end.
    + intros H. destruct (pack_inr l H) as (a & b & c & d & Hp & _). eauto.
Qed.

End TagFacts.

(** ** Properties of the integer codec *)
Module VarintFacts.
Import Wire Varint.

Lemma testbit_7 b : 0 ≤ b < 256 → Z.testbit b 7 = (128 <=? b).
Proof.
  intros Hb. rewrite Z.testbit_odd, Z.shiftr_div_pow2 by lia.
  change (2 ^ 7) with 128.
  destruct (128 <=? b) eqn:E.
  - replace (b / 128) with 1 by (Z.div_mod_to_equations; lia). reflexivity.
  - replace (b / 128) with 0 by (Z.div_mod_to_equations; lia). reflexivity.
Qed.

Lemma land_127 b : Z.land b 127 = b mod 128.
Proof. change 127 with (Z.ones 7). by rewrite Z.land_ones by lia. Qed.

Lemma continuation_byte u :
  Z.lor (Z.land u 127) 128 = 128 + u mod 128.
Proof.
  rewrite land_127, Z.lor_comm.
  change (Z.lor 128 (u mod 128)) with (Z.lor (Z.shiftl 1 7) (u mod 128)).
  rewrite Bits.lor_shiftl_add; [reflexivity|lia|].
  change (2 ^ 7) with 128. apply Z.mod_pos_bound. lia.
Qed.

Lemma read_varint_step f shift acc pos b r :
  read_varint (S f) shift acc (pos, b :: r) =
  let acc' := Z.lor acc (Z.shiftl (Z.land b 127) shift) in
  if Z.testbit b 7 then read_varint f (shift + 7) acc' (S pos, r)
  else inr (acc' mod 2 ^ 64, (S pos, r)).
Proof.
  cbn [read_varint]. unfold bind, byte. cbn [fst snd].
  by destruct (Z.testbit b 7).
Qed.

Lemma accumulate acc shift d :
  0 ≤ shift → 0 ≤ acc < 2 ^ shift → 0 ≤ d < 128 →
  let acc' := Z.lor acc (Z.shiftl d shift) in
  acc' = acc + d * 2 ^ shift ∧ 0 ≤ acc' < 2 ^ (shift + 7).
Proof.
  intros Hs Ha Hd. simpl.
  rewrite Z.lor_comm, Bits.lor_shiftl_add by lia.
  rewrite Z.pow_add_r by lia. change (2 ^ 7) with 128.
  split; [lia|]. nia.
Qed.

(** Reading a complete group gives the value it spells, reduced to 64
    bits, and consumes exactly the group. *)
Lemma read_group g :
  is_group g = true →
  ∀ fuel shift acc pos rest,
    (length g ≤ fuel)%nat → 0 ≤ shift → 0 ≤ acc < 2 ^ shift →
    read_varint fuel shift acc (pos, g ++ rest) =
    inr ((acc + group_value g * 2 ^ shift) mod 2 ^ 64, ((pos + length g)%nat, rest)).
Proof.
  induction g as [|b r IH]; [discriminate|].
  intros Hg fuel shift acc pos rest Hlen Hs Ha.
  destruct fuel as [|f]; [simpl in Hlen; lia|].
  rewrite <- app_comm_cons, read_varint_step.
  simpl in Hg. destruct r as [|b' r'].
  - assert (0 ≤ b < 128) as Hb by lia.
    rewrite testbit_7 by lia. replace (128 <=? b) with false by lia.
    rewrite land_127, (Z.mod_small b 128) by lia.
    destruct (accumulate acc shift b Hs Ha Hb) as [-> _].
    simpl. rewrite land_127, (Z.mod_small b 128) by lia.
    replace (pos + 1)%nat with (S pos) by lia.
    do 3 f_equal. lia.
  - apply andb_prop in Hg as [Hb Hr].
    assert (128 ≤ b < 256) as Hb' by lia.
    rewrite testbit_7 by lia. replace (128 <=? b) with true by lia.
    assert (0 ≤ Z.land b 127 < 128) as Hd.
    { rewrite land_127. apply Z.mod_pos_bound. lia. }
    destruct (accumulate acc shift _ Hs Ha Hd) as [Hacc Hbound].
    cbv zeta. rewrite IH; [|exact Hr|simpl in *; lia|lia|exact Hbound].
    rewrite Hacc. change (group_value (b :: b' :: r')) with
      (Z.land b 127 + 128 * group_value (b' :: r')).
    rewrite Z.pow_add_r by lia. change (2 ^ 7) with 128.
    f_equal. f_equal; [f_equal; lia|].
    f_equal. simpl. lia.
Qed.

(** A group whose first [fuel] bytes all ask for more is refused at the
    offset after them. *)
Lemma read_overlong fuel :
  ∀ g shift acc pos rest,
    length g = fuel → Forall (λ b, Z.testbit b 7 = true) g →
    read_varint fuel shift acc (pos, g ++ rest) = inl (Malformed (pos + fuel)%nat).
Proof.
  induction fuel as [|f IH]; intros g shift acc pos rest Hlen Hall.
  - simpl. unfold malformed. simpl. f_equal. f_equal. lia.
  - destruct g as [|b r]; [discriminate|].
    apply Forall_cons in Hall as [Hb Hr].
    rewrite <- app_comm_cons, read_varint_step. cbv zeta. rewrite Hb.
    rewrite IH; [|simpl in Hlen; lia|exact Hr]. do 2 f_equal. lia.
Qed.

(** What the writer emits for a value that fits its fuel: a complete group
    that spells the value, of the least width that can hold it. *)
Lemma write_varint_group fuel :
  ∀ u, (0 < fuel)%nat → 0 ≤ u < 2 ^ (7 * Z.of_nat fuel) →
  let g := write_varint fuel u in
  is_group g = true ∧ group_value g = u ∧
  (1 ≤ length g ≤ fuel)%nat ∧
  u < 2 ^ (7 * Z.of_nat (length g)) ∧
  ((1 < length g)%nat → 2 ^ (7 * (Z.of_nat (length g) - 1)) ≤ u).
Proof.
  induction fuel as [|f IH]; intros u Hf Hu; [lia|].
  cbn [write_varint]. destruct (u <? 128) eqn:E.
  - cbn. rewrite land_127, Z.mod_small by lia.
    repeat split; try lia.
  - assert (128 ≤ u) as Hge by lia.
    assert (0 < f)%nat as Hf'.
    { destruct f; [|lia]. change (2 ^ (7 * Z.of_nat 1)) with 128 in Hu. lia. }
    assert (0 ≤ Z.shiftr u 7 < 2 ^ (7 * Z.of_nat f)) as Hu'.
    { rewrite Z.shiftr_div_pow2 by lia. change (2 ^ 7) with 128.
      replace (7 * Z.of_nat (S f)) with (7 * Z.of_nat f + 7) in Hu by lia.
      rewrite Z.pow_add_r in Hu by lia. change (2 ^ 7) with 128 in Hu.
      split; [apply Z.div_pos; lia|].
      apply Z.div_lt_upper_bound; lia. }
    destruct (IH (Z.shiftr u 7) Hf' Hu') as (Hg & Hv & Hl & Hlt & Hmin).
    set (r := write_varint f (Z.shiftr u 7)) in *.
    rewrite Z.shiftr_div_pow2 in Hv, Hu', Hlt, Hmin by lia.
    change (2 ^ 7) with 128 in Hv, Hu', Hlt, Hmin.
    assert (0 ≤ u mod 128 < 128) as Hm by (apply Z.mod_pos_bound; lia).
    cbv zeta. split; [|split; [|split; [|split]]].
    + cbn [is_group]. destruct r as [|b' r']; [simpl in Hl; lia|].
      rewrite Hg, continuation_byte.
      replace (128 <=? 128 + u mod 128) with true by lia.
      replace (128 + u mod 128 <? 256) with true by lia. reflexivity.
    + cbn [group_value]. rewrite Hv, continuation_byte, land_127.
      replace ((128 + u mod 128) mod 128) with (u mod 128)
        by (Z.div_mod_to_equations; lia).
      Z.div_mod_to_equations; lia.
    + simpl; lia.
    + cbn [length].
      replace (7 * Z.of_nat (S (length r))) with (7 * Z.of_nat (length r) + 7) by lia.
      rewrite Z.pow_add_r by lia. change (2 ^ 7) with 128.
      Z.div_mod_to_equations; nia.
    + intros _. cbn [length].
      replace (Z.of_nat (S (length r)) - 1) with (Z.of_nat (length r)) by lia.
      destruct (decide (1 < length r)%nat) as [Hk|Hk].
      * specialize (Hmin Hk).
        replace (7 * Z.of_nat (length r)) with (7 * (Z.of_nat (length r) - 1) + 7) by lia.
        rewrite Z.pow_add_r by lia. change (2 ^ 7) with 128.
        Z.div_mod_to_equations; nia.
      * replace (length r) with 1%nat by lia. change (2 ^ (7 * Z.of_nat 1)) with 128. lia.
Qed.

Lemma zigzag_value n :
  int64 n →
  zigzag n = (if n <? 0 then - 2 * n - 1 else 2 * n) ∧ 0 ≤ zigzag n < 2 ^ 64.
Proof.
  unfold int64, zigzag. intros Hn.
  rewrite Z.shiftl_mul_pow2, Z.shiftr_div_pow2 by lia.
  change (2 ^ 1) with 2. change (2 ^ 63) with 9223372036854775808 in *.
  change (2 ^ 64) with 18446744073709551616.
  destruct (n <? 0) eqn:E.
  - replace (n / 9223372036854775808) with (-1) by (Z.div_mod_to_equations; lia).
    rewrite Z.lxor_m1_r. unfold Z.lnot.
    rewrite Z.mod_small by lia. lia.
  - replace (n / 9223372036854775808) with 0 by (Z.div_mod_to_equations; lia).
    rewrite Z.lxor_0_r. rewrite Z.mod_small by lia. lia.
Qed.

Lemma land_1 x : Z.land x 1 = x mod 2.
Proof. change (Z.land x 1) with (Z.land x (Z.ones 1)). by rewrite Z.land_ones by lia. Qed.

Lemma unzigzag_zigzag n : int64 n → unzigzag (zigzag n) = n.
Proof.
  intros Hn. destruct (zigzag_value n Hn) as [-> _].
  unfold int64, unzigzag in *.
  rewrite Z.shiftr_div_pow2, land_1 by lia. change (2 ^ 1) with 2.
  destruct (n <? 0) eqn:E.
  - replace ((- 2 * n - 1) mod 2) with 1 by (Z.div_mod_to_equations; lia).
    replace ((- 2 * n - 1) / 2) with (- n - 1) by (Z.div_mod_to_equations; lia).
    rewrite Z.lxor_m1_r. unfold Z.lnot. lia.
  - replace ((2 * n) mod 2) with 0 by (Z.div_mod_to_equations; lia).
    replace (2 * n / 2) with n by (Z.div_mod_to_equations; lia).
    apply Z.lxor_0_r.
Qed.

Lemma decode_integer_group w pos rest :
  is_group w = true → (length w ≤ 10)%nat →
  decode_integer (pos, w ++ rest) =
  inr (unzigzag (group_value w mod 2 ^ 64), ((pos + length w)%nat, rest)).
Proof.
  intros Hg Hl. unfold decode_integer, varint, bind.
  rewrite (read_group w Hg 10 0 0 pos rest Hl) by lia.
  replace (0 + group_value w * 2 ^ 0) with (group_value w)
    by (change (2 ^ 0) with 1; lia).
  reflexivity.
Qed.

Lemma varint_fits u : 0 ≤ u < 2 ^ 64 → 0 ≤ u < 2 ^ (7 * Z.of_nat 10).
Proof. change (2 ^ (7 * Z.of_nat 10)) with (2 ^ 64 * 64). lia. Qed.

(** An unsigned 64-bit value written and read back. *)
Lemma varint_read u pos rest :
  0 ≤ u < 2 ^ 64 →
  varint (pos, varint_bytes u ++ rest) =
  inr (u, ((pos + length (varint_bytes u))%nat, rest)).
Proof.
  intros Hu. unfold varint, varint_bytes.
  destruct (write_varint_group 10 u ltac:(lia) (varint_fits u Hu))
    as (Hg & Hv & Hl & _).
  rewrite (read_group _ Hg 10 0 0 pos rest) by lia.
  rewrite Hv. change (2 ^ 0) with 1.
  replace (0 + u * 1) with u by lia. by rewrite Z.mod_small by exact Hu.
Qed.

Lemma varint_bytes_length u :
  0 ≤ u < 2 ^ 64 → (1 ≤ length (varint_bytes u) ≤ 10)%nat.
Proof.
  intros Hu. unfold varint_bytes.
  by destruct (write_varint_group 10 u ltac:(lia) (varint_fits u Hu))
    as (_ & _ & Hl & _).
Qed.

(** A signed 64-bit value written and read back. *)
Lemma decode_integer_read n pos rest :
  int64 n →
  decode_integer (pos, encode_integer n ++ rest) =
  inr (n, ((pos + length (encode_integer n))%nat, rest)).
Proof.
  intros Hn. destruct (zigzag_value n Hn) as [_ Hr].
  unfold decode_integer, encode_integer, bind.
  rewrite varint_read by exact Hr. unfold ret. by rewrite unzigzag_zigzag.
Qed.

(** C6: for a signed 64-bit [n], the wire form is the zig-zag value of [n]
    written as a complete group of seven-bit bytes with the top bit as
    continuation; its length is the least width that holds the zig-zag
    value, and decoding it gives [n] back.  The decoder accepts every
    complete group of up to ten bytes, and fails with [Malformed] when the
    first ten bytes all ask for more. *)
Theorem integer_wire_form (n : Z) :
  int64 n →
  let g := encode_integer n in
  zigzag n = (if n <? 0 then - 2 * n - 1 else 2 * n) ∧
  is_group g = true ∧ group_value g = zigzag n ∧
  (1 ≤ length g ≤ 10)%nat ∧
  zigzag n < 2 ^ (7 * Z.of_nat (length g)) ∧
  ((1 < length g)%nat → 2 ^ (7 * (Z.of_nat (length g) - 1)) ≤ zigzag n) ∧
  (∀ pos rest,
     decode_integer (pos, g ++ rest) = inr (n, ((pos + length g)%nat, rest))) ∧
  (∀ w pos rest, is_group w = true → (length w ≤ 10)%nat →
     decode_integer (pos, w ++ rest) =
     inr (unzigzag (group_value w mod 2 ^ 64), ((pos + length w)%nat, rest))) ∧
  (∀ w pos rest, length w = 10%nat → Forall (λ b, Z.testbit b 7 = true) w →
     decode_integer (pos, w ++ rest) = inl (Malformed (pos + 10)%nat)).
Proof.
  intros Hn. destruct (zigzag_value n Hn) as [Hz Hr].
  assert (0 ≤ zigzag n < 2 ^ (7 * Z.of_nat 10)) as Hfit.
  { change (2 ^ (7 * Z.of_nat 10)) with (2 ^ 64 * 64). lia. }
  destruct (write_varint_group 10 (zigzag n) ltac:(lia) Hfit)
    as (Hg & Hv & Hl & Hlt & Hmin).
  cbv zeta. unfold encode_integer, varint_bytes.
  split; [exact Hz|]. split; [exact Hg|]. split; [exact Hv|].
  split; [exact Hl|]. split; [exact Hlt|]. split; [exact Hmin|].
  split; [|split].
  - intros pos rest. by apply decode_integer_read.
  - intros w pos rest. apply decode_integer_group.
  - intros w pos rest Hlen Hall. unfold decode_integer, varint, bind.
    by rewrite (read_overlong 10 w 0 0 pos rest Hlen Hall).
Qed.

Lemma integer_wire_form_witness :
  int64 (-3) ∧
  encode_integer (-3) = [5] ∧
  decode_integer (0%nat, encode_integer (-3) ++ [9]) = inr (-3, (1%nat, [9])).
Proof.
  split; [unfold int64; lia|]. split; [reflexivity|].
  destruct (integer_wire_form (-3)) as (_ & _ & _ & _ & _ & _ & H & _).
  - unfold int64; lia.
  - exact (H 0%nat [9]).
Defined.

(** Sample encodings: small magnitudes take one byte, 64 takes two, the
    least 64-bit value takes the full ten. *)
Example encode_integer_samples :
  encode_integer 0 = [0] ∧ encode_integer (-1) = [1] ∧
  encode_integer 7 = [14] ∧ encode_integer 64 = [128; 1] ∧
  length (encode_integer (- 2 ^ 63)) = 10%nat.
Proof. repeat split; by vm_compute. Qed.

(** A group wider than needed is accepted; eleven bytes are not; a group
    cut short is refused where the input ends. *)
Example decode_integer_samples :
  decode_integer (0%nat, [142; 128; 0]) = inr (7, (3%nat, [])) ∧
  decode_integer (0%nat, replicate 10 255 ++ [1]) = inl (Malformed 10) ∧
  decode_integer (4%nat, [128]) = inl (Malformed 5).
Proof. repeat split; by vm_compute. Qed.

End VarintFacts.

(** ** Properties of the TDF codec *)
Module TdfFacts.
Import Wire Varint Tdf.

Lemma reads_ret {A} (a : A) : reads (ret a) [] a.
Proof. intros pos rest. unfold ret. simpl. do 3 f_equal. lia. Qed.

Lemma reads_bind {A B} (m : Reader A) (k : A → Reader B) bs1 bs2 a b :
  reads m bs1 a → reads (k a) bs2 b → reads (bind m k) (bs1 ++ bs2) b.
Proof.
  intros Hm Hk pos rest. unfold bind.
  rewrite <- app_assoc, Hm, Hk, length_app. do 3 f_equal. lia.
Qed.

Lemma reads_bind_ret {A B} (m : Reader A) (f : A → B) bs a :
  reads m bs a → reads (bind m (λ x, ret (f x))) bs (f a).
Proof.
  intros Hm. rewrite <- (app_nil_r bs).
  eapply reads_bind; [exact Hm|apply reads_ret].
Qed.

Lemma reads_byte b : reads byte [b] b.
Proof. intros pos rest. unfold byte. simpl. do 3 f_equal. lia. Qed.

Lemma reads_byte_bind {B} (k : Z → Reader B) b bs x :
  reads (k b) bs x → reads (bind byte k) (b :: bs) x.
Proof. intros Hk. apply (reads_bind byte k [b] bs b); [apply reads_byte|exact Hk]. Qed.

Lemma reads_bytes bs : reads (bytes (length bs)) bs bs.
Proof.
  induction bs as [|b r IH]; [apply reads_ret|].
  cbn [length bytes]. apply reads_byte_bind.
  by apply (reads_bind_ret (bytes (length r)) (cons b)).
Qed.

Lemma reads_varint u : u64 u → reads varint (varint_bytes u) u.
Proof. intros Hu pos rest. by apply VarintFacts.varint_read. Qed.

Lemma reads_integer n : int64 n → reads decode_integer (encode_integer n) n.
Proof. intros Hn pos rest. by apply VarintFacts.decode_integer_read. Qed.

Lemma kind_of_code_kind_code k : kind_of_code (kind_code k) = Some k.
Proof. by destruct k. Qed.

Lemma reads_kind_byte k : reads kind_byte [kind_code k] k.
Proof.
  intros pos rest. unfold kind_byte. cbn [snd fst app].
  rewrite kind_of_code_kind_code. do 3 f_equal. simpl. lia.
Qed.

Lemma reads_zero_byte : reads zero_byte [0] tt.
Proof. intros pos rest. unfold zero_byte. simpl. do 3 f_equal. lia. Qed.

Lemma reads_times {A} (r : Reader A) (enc : A → list Z) xs :
  Forall (λ x, reads r (enc x) x) xs →
  reads (times (length xs) r) (flat_map enc xs) xs.
Proof.
  induction 1 as [|x xs Hx _ IH]; [apply reads_ret|].
  cbn [length times flat_map].
  eapply reads_bind; [exact Hx|].
  by apply (reads_bind_ret (times (length xs) r) (cons x)).
Qed.

Lemma land_255 x : Z.land x 255 = x mod 256.
Proof. change 255 with (Z.ones 8). by rewrite Z.land_ones by lia. Qed.

Lemma reads_u32 x : u32_range x → reads u32 (u32_le x) x.
Proof.
  unfold u32_range. intros Hx. unfold u32, u32_le.
  do 4 apply reads_byte_bind.
  replace (Z.lor _ _) with x; [apply reads_ret|].
  rewrite !land_255, !Z.shiftr_div_pow2 by lia.
  change (2 ^ 8) with 256. change (2 ^ 16) with 65536. change (2 ^ 24) with 16777216.
  change (2 ^ 32) with 4294967296 in Hx.
  assert (∀ a, 0 ≤ a mod 256 < 2 ^ 8) as Hm
    by (intros a; change (2 ^ 8) with 256; apply Z.mod_pos_bound; lia).
  rewrite !(Z.lor_comm (_ mod 256)), !Bits.lor_shiftl_add by (lia || apply Hm).
  change (2 ^ 8) with 256.
  Z.div_mod_to_equations. lia.
Qed.

(** A packed tag on the wire: three bytes, the first not zero, from which
    the tag is rebuilt. *)
Lemma packed_bytes t :
  Tag.packed t →
  Z.land (Z.shiftr t 24) 255 ≠ 0 ∧
  Z.shiftl (Z.lor (Z.shiftl (Z.lor (Z.shiftl (Z.land (Z.shiftr t 24) 255) 8)
     (Z.land (Z.shiftr t 16) 255)) 8) (Z.land (Z.shiftr t 8) 255)) 8 = t.
Proof.
  intros [l Hl]. unfold Tag.pack in Hl.
  destruct (Tag.code_of (Tag.l0 l)) as [a|] eqn:Ea; [|discriminate].
  destruct (Tag.code_of (Tag.l1 l)) as [b|] eqn:Eb; [|discriminate].
  destruct (Tag.code_of (Tag.l2 l)) as [c|] eqn:Ec; [|discriminate].
  destruct (Tag.code_of (Tag.l3 l)) as [d|] eqn:Ed; [|discriminate].
  injection Hl as <-.
  assert (∀ ch k, Tag.code_of ch = Some k → 1 ≤ k ≤ 38) as Hcode.
  { intros ch k Hk. destruct (Tag.in_alphabet ch) eqn:Ein.
    - destruct (TagFacts.code_of_char ch Ein) as (k' & Hk' & Hr & _). congruence.
    - apply TagFacts.code_of_None in Ein. congruence. }
  apply Hcode in Ea, Eb, Ec, Ed.
  destruct (TagFacts.layout_fields a b c d) as (_ & _ & _ & _ & Hr & Hlow & Htop);
    try lia.
  set (t := Tag.layout a b c d) in *.
  rewrite !land_255, !Z.shiftr_div_pow2 by lia.
  change (2 ^ 8) with 256. change (2 ^ 16) with 65536.
  change (2 ^ 24) with 16777216 in *. change (2 ^ 32) with 4294967296 in Hr.
  assert (∀ x, 0 ≤ x mod 256 < 2 ^ 8) as Hm
    by (intros x; change (2 ^ 8) with 256; apply Z.mod_pos_bound; lia).
  rewrite !Bits.lor_shiftl_add by (lia || apply Hm).
  rewrite Z.shiftl_mul_pow2 by lia. change (2 ^ 8) with 256.
  split; Z.div_mod_to_equations; lia.
Qed.

Lemma reads_header_after t k :
  Tag.packed t →
  reads (header_after (Z.land (Z.shiftr t 24) 255))
        [Z.land (Z.shiftr t 16) 255; Z.land (Z.shiftr t 8) 255; kind_code k] (t, k).
Proof.
  intros Hp. destruct (packed_bytes t Hp) as [_ Hrebuild].
  unfold header_after. do 2 apply reads_byte_bind. rewrite Hrebuild.
  apply (reads_bind_ret kind_byte (λ k, (t, k))), reads_kind_byte.
Qed.

Lemma foldr_and_Forall {A} (Q : A → Prop) l :
  foldr (λ x acc, Q x ∧ acc) True l ↔ Forall Q l.
Proof.
  induction l as [|x l IH]; simpl.
  - split; [constructor|done].
  - rewrite Forall_cons, IH. done.
Qed.

(** The field sequence of a struct, up to and including its terminator. *)
Lemma decode_fields_reads fs :
  Forall (λ f, valid f.2 → ∀ fuel, (weight f.2 ≤ fuel)%nat →
     reads (decode_bare fuel (kind_of f.2)) (encode_bare f.2) f.2) fs →
  Forall (λ f, Tag.packed f.1 ∧ valid f.2) fs →
  ∀ fuel, (1 + sum_list_with (λ f, 1 + weight f.2) fs ≤ fuel)%nat →
  reads (decode_fields fuel)
        (flat_map (λ f, header f.1 (kind_of f.2) ++ encode_bare f.2) fs ++ [0]) fs.
Proof.
  induction fs as [|[t v] r IHr]; intros IH Hv fuel Hf.
  - destruct fuel as [|f]; [simpl in Hf; lia|].
    cbn [flat_map app decode_fields]. apply reads_byte_bind. simpl. apply reads_ret.
  - apply Forall_cons in IH as [IHv IH]. apply Forall_cons in Hv as [[Ht Hvv] Hv].
    simpl in Ht, Hvv, IHv. cbn [sum_list_with fst snd] in Hf.
    destruct fuel as [|f]; [lia|].
    destruct (packed_bytes t Ht) as [Hnz _].
    cbn [flat_map fst snd header app decode_fields]. apply reads_byte_bind.
    rewrite (proj2 (Z.eqb_neq _ 0) Hnz).
    change (?b1 :: ?b2 :: kind_code ?k :: ?tl) with ([b1; b2; kind_code k] ++ tl).
    eapply reads_bind; [by apply reads_header_after|].
    cbn [fst snd]. rewrite <- app_assoc.
    eapply reads_bind; [apply IHv; [exact Hvv|lia]|].
    apply (reads_bind_ret (decode_fields f) (cons (t, v))).
    apply IHr; [exact IH|exact Hv|lia].
Qed.

(** Every valid value, given fuel for its weight, is read back from its
    bare wire form. *)
Lemma decode_bare_reads v :
  valid v → ∀ fuel, (weight v ≤ fuel)%nat →
  reads (decode_bare fuel (kind_of v)) (encode_bare v) v.
Proof.
  induction v as [n|s|b|fs H|ek items H|kk vk es H| |m t v IHv|c t|c t e|bits|a b c|x y z]
    using TdfValue_nested_ind; intros Hv fuel Hf;
    (destruct fuel as [|f]; [cbn [weight] in Hf; lia|]);
    cbn [kind_of encode_bare decode_bare valid weight] in *.
  - apply (reads_bind_ret decode_integer VInteger), reads_integer, Hv.
  - destruct Hv as [_ Hlen]. unfold u64 in Hlen.
    eapply reads_bind; [by apply reads_varint|]. cbv beta.
    replace (Z.of_nat (length s) + 1 =? 0) with false by lia.
    replace (Z.to_nat (Z.of_nat (length s) + 1 - 1)) with (length s) by lia.
    eapply reads_bind; [apply reads_bytes|].
    apply (reads_bind_ret zero_byte (λ _, VString s) [0] tt), reads_zero_byte.
  - destruct Hv as [_ Hlen].
    eapply reads_bind; [by apply reads_varint|]. cbv beta.
    rewrite Nat2Z.id.
    apply (reads_bind_ret (bytes (length b)) VBlob), reads_bytes.
  - destruct Hv as [_ Hv]. apply foldr_and_Forall in Hv.
    apply (reads_bind_ret (decode_fields f) VStruct).
    apply decode_fields_reads; [assumption|exact Hv|lia].
  - destruct Hv as [Hlen Hv]. apply foldr_and_Forall in Hv.
    change (kind_code ek :: ?tl) with ([kind_code ek] ++ tl).
    eapply reads_bind; [apply reads_kind_byte|].
    eapply reads_bind; [by apply reads_varint|]. cbv beta.
    rewrite Nat2Z.id.
    apply (reads_bind_ret (times (length items) (decode_bare f ek)) (VList ek)).
    apply reads_times. apply Forall_forall. intros x Hx.
    rewrite Forall_forall in H, Hv.
    destruct (Hv x Hx) as [<- Hvx].
    apply H; [exact Hx|exact Hvx|].
    pose proof (sum_list_with_in x weight items Hx). lia.
  - destruct Hv as (Hlen & _ & Hv). apply foldr_and_Forall in Hv.
    change (kind_code kk :: kind_code vk :: ?tl)
      with ([kind_code kk] ++ [kind_code vk] ++ tl).
    eapply reads_bind; [apply reads_kind_byte|].
    eapply reads_bind; [apply reads_kind_byte|].
    eapply reads_bind; [by apply reads_varint|]. cbv beta.
    rewrite Nat2Z.id.
    apply (reads_bind_ret (times (length es) _) (VMap kk vk)).
    apply reads_times. apply Forall_forall. intros [key val] Hx.
    rewrite Forall_forall in H, Hv.
    destruct (Hv _ Hx) as [[<- Hvk] [<- Hvv]]. destruct (H _ Hx) as [IHk IHv].
    pose proof (sum_list_with_in _ (λ e, weight e.1 + weight e.2)%nat es Hx) as Hw.
    cbn [fst snd] in *.
    eapply reads_bind; [apply IHk; [exact Hvk|lia]|].
    apply (reads_bind_ret (decode_bare f (kind_of val)) (λ val, (key, val))).
    apply IHv; [exact Hvv|lia].
  - apply reads_byte_bind. simpl. apply reads_ret.
  - destruct Hv as (_ & Hm & Ht & Hv).
    apply reads_byte_bind. rewrite (proj2 (Z.eqb_neq _ _) Hm).
    cbn [header app]. apply reads_byte_bind.
    change (?b1 :: ?b2 :: kind_code ?k :: ?tl) with ([b1; b2; kind_code k] ++ tl).
    eapply reads_bind; [by apply reads_header_after|].
    cbn [fst snd].
    apply (reads_bind_ret (decode_bare f (kind_of v)) (VUnionActive m t)).
    apply IHv; [exact Hv|lia].
  - destruct Hv as [Hc Ht]. unfold u16 in *.
    eapply reads_bind; [apply reads_varint; unfold u64; lia|].
    apply (reads_bind_ret varint (VObjectType c)).
    apply reads_varint; unfold u64; lia.
  - destruct Hv as (Hc & Ht & He). unfold u16 in *.
    eapply reads_bind; [apply reads_varint; unfold u64; lia|].
    eapply reads_bind; [apply reads_varint; unfold u64; lia|].
    apply (reads_bind_ret varint (VObjectId c t)). by apply reads_varint.
  - apply (reads_bind_ret u32 VFloat). by apply reads_u32.
  - destruct Hv as (Ha & Hb & Hc).
    eapply reads_bind; [by apply reads_u32|].
    eapply reads_bind; [by apply reads_u32|].
    apply (reads_bind_ret u32 (VTriple a b)). by apply reads_u32.
  - destruct Hv as (Hx & Hy & Hz).
    eapply reads_bind; [by apply reads_u32|].
    eapply reads_bind; [by apply reads_u32|].
    apply (reads_bind_ret u32 (VVector3 x y)). by apply reads_u32.
Qed.

Lemma write_varint_nonempty f u : (1 ≤ length (write_varint (S f) u))%nat.
Proof. cbn [write_varint]. destruct (u <? 128); cbn [length]; lia. Qed.

Lemma varint_bytes_nonempty u : (1 ≤ length (varint_bytes u))%nat.
Proof. apply (write_varint_nonempty 9). Qed.

Lemma sum_le_flat {A} (w : A → nat) (enc : A → list Z) l :
  Forall (λ x, (w x ≤ 2 * length (enc x))%nat) l →
  (sum_list_with w l ≤ 2 * length (flat_map enc l))%nat.
Proof.
  induction 1 as [|x l Hx _ IH]; [simpl; lia|].
  cbn [sum_list_with flat_map]. rewrite length_app. lia.
Qed.

(** Twice the length of the wire form is fuel enough. *)
Lemma weight_bound v : (weight v ≤ 2 * length (encode_bare v))%nat.
Proof.
  pose proof varint_bytes_nonempty as Hne.
  induction v as [n|s|b|fs H|ek items H|kk vk es H| |m t v IHv|c t|c t e|bits|a b c|x y z]
    using TdfValue_nested_ind; cbn [weight encode_bare];
    unfold u32_le, encode_integer;
    repeat (rewrite ?length_app; cbn [length]).
  - specialize (Hne (zigzag n)). lia.
  - lia.
  - specialize (Hne (Z.of_nat (length b))). lia.
  - assert (sum_list_with (λ f, 1 + weight f.2)%nat fs
            ≤ 2 * length (flat_map (λ f, header f.1 (kind_of f.2) ++ encode_bare f.2) fs))%nat.
    { apply sum_le_flat. eapply Forall_impl; [exact H|].
      intros [t x] Hx. unfold header. rewrite length_app.
      cbn [fst snd length] in *. lia. }
    lia.
  - pose proof (sum_le_flat weight encode_bare items H). lia.
  - assert (sum_list_with (λ e, weight e.1 + weight e.2)%nat es
            ≤ 2 * length (flat_map (λ e, encode_bare e.1 ++ encode_bare e.2) es))%nat.
    { apply sum_le_flat. eapply Forall_impl; [exact H|].
      intros [k x] [Hk Hx]. cbn [fst snd] in *. rewrite length_app. lia. }
    lia.
  - lia.
  - unfold header. cbn [length]. lia.
  - specialize (Hne c). lia.
  - specialize (Hne c). lia.
  - lia.
  - lia.
  - lia.
Qed.

Lemma equiv_refl v : equiv v v.
Proof.
  induction v as [n|s|b|fs H|ek items H|kk vk es H| |m t v IHv|c t|c t e|bits|a b c|x y z]
    using TdfValue_nested_ind; try constructor; try assumption.
  - apply (equiv_struct fs fs fs); [reflexivity|].
    apply Forall_Forall2_diag. eapply Forall_impl; [exact H|]. by intros [t x].
  - by apply Forall_Forall2_diag.
  - apply (equiv_map kk vk es es es); [reflexivity|].
    by apply Forall_Forall2_diag.
Qed.

Lemma equiv_struct_perm fs gs : fs ≡ₚ gs → equiv (VStruct fs) (VStruct gs).
Proof.
  intros Hp. apply (equiv_struct fs gs fs); [exact Hp|].
  apply Forall_Forall2_diag, Forall_forall. intros f _. split; [done|apply equiv_refl].
Qed.

Lemma equiv_map_perm kk vk es fs :
  es ≡ₚ fs → equiv (VMap kk vk es) (VMap kk vk fs).
Proof.
  intros Hp. apply (equiv_map kk vk es fs es); [exact Hp|].
  apply Forall_Forall2_diag, Forall_forall. intros e _. split; apply equiv_refl.
Qed.

Lemma equiv_list_inv ek ek' xs ys :
  equiv (VList ek xs) (VList ek' ys) → ek = ek' ∧ Forall2 equiv xs ys.
Proof. intros H. by inversion H; subst. Qed.

(** A tagged value written to a buffer and decoded from it. *)
Lemma decode_encode tag v :
  Tag.packed tag → valid v → decode (encode tag v) = inr (tag, v).
Proof.
  intros Ht Hv. unfold decode. cbv zeta.
  assert (reads (let* b0 := byte in
                 let* h := header_after b0 in
                 let* x := decode_bare (2 * length (encode tag v)) h.2 in
                 ret (h.1, x)) (encode tag v) (tag, v)) as HR.
  { unfold encode at 2. cbn [header app]. apply reads_byte_bind.
    change (?b1 :: ?b2 :: kind_code ?k :: ?tl) with ([b1; b2; kind_code k] ++ tl).
    eapply reads_bind; [by apply reads_header_after|].
    cbn [fst snd].
    apply (reads_bind_ret (decode_bare _ (kind_of v)) (λ x, (tag, x))).
    apply decode_bare_reads; [exact Hv|].
    pose proof (weight_bound v). unfold encode. rewrite length_app. lia. }
  specialize (HR 0%nat []). rewrite app_nil_r in HR. rewrite HR. reflexivity.
Qed.

(** C2: a valid value, written under a packed tag and decoded, comes back
    under the same tag as a value structurally equal to the one written
    (indeed the same value).  Structural equality holds between structs
    whose fields, and between maps whose entries, are permutations of one
    another, and between lists only position by position. *)
Theorem value_round_trip (tag : Z) (v : TdfValue) :
  Tag.packed tag → valid v →
  (∃ v', decode (encode tag v) = inr (tag, v') ∧ v' = v ∧ equiv v' v) ∧
  (∀ fs gs, fs ≡ₚ gs → equiv (VStruct fs) (VStruct gs)) ∧
  (∀ kk vk es fs, es ≡ₚ fs → equiv (VMap kk vk es) (VMap kk vk fs)) ∧
  (∀ ek ek' xs ys, equiv (VList ek xs) (VList ek' ys) →
     ek = ek' ∧ Forall2 equiv xs ys).
Proof.
  intros Ht Hv. split; [|split; [|split]].
  - exists v. split; [by apply decode_encode|]. split; [reflexivity|apply equiv_refl].
  - apply equiv_struct_perm.
  - apply equiv_map_perm.
  - apply equiv_list_inv.
Qed.

Lemma value_round_trip_witness :
  let v := VStruct [(1088441600, VString [102; 111; 111]); (1095127040, VInteger 7)] in
  Tag.packed 1223939072 ∧ valid v ∧
  ∃ v', decode (encode 1223939072 v) = inr (1223939072, v') ∧ v' = v ∧ equiv v' v.
Proof.
  assert (Tag.packed 1223939072) as Hroot.
  { by exists {| Tag.l0 := "R"; Tag.l1 := "O"; Tag.l2 := "O"; Tag.l3 := "T" |}. }
  assert (valid (VStruct [(1088441600, VString [102; 111; 111]);
                          (1095127040, VInteger 7)])) as Hv.
  { cbn [valid foldr fst snd]. split; [|split; [split|split; [split|done]]].
    - cbn [fmap list_fmap fst]. apply NoDup_cons. split; [|apply NoDup_singleton].
      intros Hin. apply list_elem_of_singleton in Hin. discriminate Hin.
    - by exists {| Tag.l0 := "P"; Tag.l1 := "N"; Tag.l2 := "A"; Tag.l3 := "M" |}.
    - split; [|unfold u64; simpl; lia].
      repeat (apply List.Forall_cons; [unfold is_byte; lia|]). apply List.Forall_nil.
    - by exists {| Tag.l0 := "P"; Tag.l1 := "T"; Tag.l2 := "Y"; Tag.l3 := "P" |}.
    - unfold int64. lia. }
  split; [exact Hroot|]. split; [exact Hv|].
  exact (proj1 (value_round_trip 1223939072 _ Hroot Hv)).
Defined.

(** The struct of the first scenario on the wire: per field the three tag
    bytes, the kind byte and the bare value, then the terminator. *)
Example struct_on_the_wire :
  encode 1223939072
    (VStruct [(1088441600, VString [102; 111; 111]); (1095127040, VInteger 7)]) =
  [72; 243; 212; 3;
   64; 224; 77; 1; 4; 102; 111; 111; 0;
   65; 70; 80; 0; 14;
   0].
Proof. by vm_compute. Qed.

(** Strictness: a byte after the value, and a value cut short, are refused
    at the offset where the decoder finds them. *)
Example decode_strict :
  let bs := encode 1223939072
    (VStruct [(1088441600, VString [102; 111; 111]); (1095127040, VInteger 7)]) in
  decode (bs ++ [1]) = inl (Malformed 19) ∧
  decode (removelast bs) = inl (Malformed 18) ∧
  decode [72; 243; 212; 12] = inl (Malformed 3).
Proof. repeat split; by vm_compute. Qed.

(** Field order does not matter to the comparison, element order does. *)
Example equiv_order :
  equiv (VStruct [(1088441600, VInteger 1); (1095127040, VInteger 2)])
        (VStruct [(1095127040, VInteger 2); (1088441600, VInteger 1)]) ∧
  ¬ equiv (VList TInteger [VInteger 1; VInteger 2])
          (VList TInteger [VInteger 2; VInteger 1]).
Proof.
  split.
  - apply equiv_struct_perm. apply Permutation_swap.
  - intros H. apply equiv_list_inv in H as [_ H].
    apply Forall2_cons_1 in H as [H _]. inversion H.
Qed.

End TdfFacts.

(** ** Properties of the dispatcher *)
Module DispatchFacts.
Import Tdf Dispatch.

(** C8: a request whose (component, command) pair has no handler makes the
    dispatcher emit exactly one frame, of kind [Error], with code
    [CommandNotFound] and the message id of the request, and leaves the
    session as it was, so an open session stays open. *)
Theorem unknown_command (reg : gmap (Z * Z) Handler) (s : Session) (f : Frame) :
  kind f = Request →
  reg !! (component f, command f) = None →
  ∃ e, (dispatch reg s f).1 = [e] ∧
       kind e = Error ∧ error e = CommandNotFound ∧ msg_id e = msg_id f ∧
       component e = component f ∧ command e = command f ∧
       (dispatch reg s f).2 = s ∧
       close_state (dispatch reg s f).2 = close_state s.
Proof.
  intros Hk Hnone. unfold dispatch, Handler in *. rewrite Hk, Hnone.
  eexists. split; [reflexivity|]. repeat split.
Qed.

Lemma unknown_command_witness :
  let f := {| component := 999; command := 1; error := NoError; kind := Request;
              flags := 0; msg_id := 42; payload := [] |} in
  let s := {| close_state := Open; pending := ∅; subscribed := ∅ |} in
  kind f = Request ∧
  (∅ : gmap (Z * Z) Handler) !! (component f, command f) = None ∧
  ∃ e, (dispatch ∅ s f).1 = [e] ∧
       kind e = Error ∧ error e = CommandNotFound ∧ msg_id e = 42 ∧
       component e = 999 ∧ command e = 1 ∧
       (dispatch ∅ s f).2 = s ∧
       close_state (dispatch ∅ s f).2 = Open.
Proof.
  split; [reflexivity|]. split; [reflexivity|].
  apply (unknown_command ∅
           {| close_state := Open; pending := ∅; subscribed := ∅ |}
           {| component := 999; command := 1; error := NoError; kind := Request;
              flags := 0; msg_id := 42; payload := [] |}); reflexivity.
Defined.

(** A ping is answered with a pong of the same message id, whatever the
    registry holds. *)
Lemma ping_pong (reg : gmap (Z * Z) Handler) (s : Session) (f : Frame) :
  kind f = Ping →
  dispatch reg s f = ([reply f Pong NoError []], s).
Proof. intros Hk. unfold dispatch. by rewrite Hk. Qed.

End DispatchFacts.

(** ** Further properties of the process shell *)
Module AppMoreFacts.
Import App AppAccess.

(** How a run ends and what it logs, from the start of a process. *)
Lemma run_from_start cfg ev argc argv :
  let '(e, w1) := main cfg ev argc argv World_start in
  match ev with
  | Signalled _ => e = Exit 0 ∧ trace w1 = OnInit_trace ++ [AIoStop] ++ OnExit_trace
  | OutOfWork => e = Exit 0 ∧ trace w1 = OnInit_trace ++ OnExit_trace
  | Thrown (std_exception what) =>
      e = Exit 0 ∧ trace w1 = OnInit_trace ++ [AStderr what] ++ OnExit_trace
  | Thrown foreign_exception =>
      e = Terminate foreign_exception ∧ trace w1 = OnInit_trace
  end.
Proof. exact (AppFacts.main_trace cfg ev argc argv World_start). Qed.

(** The [Application] of a run from the start of a process, by the way the
    loop ended: what [OnInit] built, stopped or not, torn down or not. *)
Lemma app_after_run cfg ev argc argv :
  the_app (main cfg ev argc argv World_start).2 =
  Some match ev with
       | Signalled _ => OnExit_members (io_stop (OnInit_members Application_new))
       | OutOfWork | Thrown (std_exception _) =>
           OnExit_members (OnInit_members Application_new)
       | Thrown foreign_exception => OnInit_members Application_new
       end.
Proof.
  unfold the_app, GetApp, main, InitApp.
  destruct ev as [s| |[what|]]; simpl;
    rewrite ?lookup_alter_eq, lookup_insert_eq; reflexivity.
Qed.



(** X3: after a run that returns from [main], the five pointer accessors
    return null and [GetSporeNet] has nothing to dereference, but the Pss,
    Tick and QoS-probe servers that [OnInit] constructed on ports 8443,
    8999 and 3659 are still held: [OnExit] does not reset them. *)
Theorem OnExit_leaves_three_servers (cfg : Config) (ev : loop_end) (argc : Z)
    (argv : list string) (code : Z) :
  (main cfg ev argc argv World_start).1 = Exit code →
  ∃ app, the_app (main cfg ev argc argv World_start).2 = Some app ∧
    get_game_api app = None ∧ get_redirector_server app = None ∧
    get_blaze_server app = None ∧ get_http_server app = None ∧
    get_qos_server app = None ∧ GetSporeNet app = None ∧
    mPssServer app = Some {| blaze_port := 8443 |} ∧
    mTickServer app = Some {| blaze_port := 8999 |} ∧
    mTestServer app = Some {| qos_port := 3659 |}.
Proof.
  intros Hexit.
  pose proof (run_from_start cfg ev argc argv) as H.
  pose proof (app_after_run cfg ev argc argv) as Ha.
  destruct (main cfg ev argc argv World_start) as [e w]. simpl in *.
  eexists. split; [exact Ha|].
  destruct ev as [s| |[what|]]; simpl; try (repeat split; reflexivity).
  destruct H as [-> _]. discriminate Hexit.
Qed.

Lemma OnExit_leaves_three_servers_witness :
  (main ∅ OutOfWork 1 ["recap_server"] World_start).1 = Exit 0 ∧
  ∃ app, the_app (main ∅ OutOfWork 1 ["recap_server"] World_start).2 = Some app ∧
    get_game_api app = None ∧ get_redirector_server app = None ∧
    get_blaze_server app = None ∧ get_http_server app = None ∧
    get_qos_server app = None ∧ GetSporeNet app = None ∧
    mPssServer app = Some {| blaze_port := 8443 |} ∧
    mTickServer app = Some {| blaze_port := 8999 |} ∧
    mTestServer app = Some {| qos_port := 3659 |}.
Proof.
  split; [reflexivity|].
  apply (OnExit_leaves_three_servers ∅ OutOfWork 1 ["recap_server"] 0). reflexivity.
Defined.

Lemma OnExit_effect this w :
  (OnExit this w).1 = 0 ∧
  heap (OnExit this w).2 = alter OnExit_members this (heap w) ∧
  sApplication (OnExit this w).2 = sApplication w.
Proof. repeat split. Qed.

(** X4: [OnExit] is safe to run again.  It returns 0 each time; a second
    call changes no object (resetting an empty pointer does nothing); it
    touches no object but its own; and on an [Application] that [OnInit]
    never initialised it changes nothing at all. *)
Theorem OnExit_again (this : nat) (w : World) :
  let '(c1, w1) := OnExit this w in
  let '(c2, w2) := OnExit this w1 in
  c1 = 0 ∧ c2 = 0 ∧
  heap w2 = heap w1 ∧ sApplication w2 = sApplication w1 ∧
  (∀ b, b ≠ this → heap w1 !! b = heap w !! b) ∧
  (heap w !! this = Some Application_new → heap w1 = heap w).
Proof.
  destruct (OnExit_effect this w) as (Hc1 & Hh1 & Hs1).
  destruct (OnExit this w) as [c1 w1]. simpl in Hc1, Hh1, Hs1.
  destruct (OnExit_effect this w1) as (Hc2 & Hh2 & Hs2).
  destruct (OnExit this w1) as [c2 w2]. simpl in Hc2, Hh2, Hs2.
  split; [exact Hc1|]. split; [exact Hc2|].
  rewrite Hh2, Hs2, Hh1.
  split; [|split; [reflexivity|split]].
  - rewrite alter_alter_eq. apply alter_ext. by intros [] _.
  - intros b Hb. by rewrite lookup_alter_ne.
  - intros Hnew. apply map_eq. intros b. rewrite lookup_alter.
    case_decide as Hb; [|reflexivity]. subst b. by rewrite Hnew.
Qed.

(** X5: [InitApp] only ever adds.  Whatever the world, it logs nothing,
    leaves every existing object as it was, and leaves [sApplication]
    pointing at the instance it returns; when an instance already exists
    the world is unchanged and that instance is returned. *)
Theorem InitApp_frame (argc : Z) (argv : list string) (w : World) :
  let '(a, w1) := InitApp argc argv w in
  trace w1 = trace w ∧
  sApplication w1 = Some a ∧
  (∀ b app, heap w !! b = Some app → heap w1 !! b = Some app) ∧
  (∀ b, sApplication w = Some b → a = b ∧ w1 = w).
Proof.
  unfold InitApp. destruct (sApplication w) as [a|] eqn:E; simpl.
  - split; [reflexivity|]. split; [exact E|]. split; [done|].
    intros b Hb. split; [congruence|reflexivity].
  - split; [reflexivity|]. split; [reflexivity|]. split; [|discriminate].
    intros b app Hb. rewrite lookup_insert_ne; [exact Hb|].
    intros <-. pose proof (is_fresh (dom (heap w))) as Hf.
    apply Hf, elem_of_dom. by eexists.
Qed.

Lemma main_dom cfg ev argc argv w :
  dom (heap (main cfg ev argc argv w).2) = dom (heap (InitApp argc argv w).2).
Proof.
  unfold main. destruct (InitApp argc argv w) as [a w0].
  destruct ev as [s| |[what|]]; simpl; by rewrite !dom_alter_L.
Qed.

(** X6: the [Application] is never freed.  A run of [main] removes no
    object from the heap, whatever world it starts in; from the start of a
    process it ends, however the loop ended, with exactly one [Application]
    on the heap and [sApplication] still pointing at it. *)
Theorem main_never_frees (cfg : Config) (ev : loop_end) (argc : Z)
    (argv : list string) (w : World) :
  dom (heap w) ⊆ dom (heap (main cfg ev argc argv w).2) ∧
  size (heap (main cfg ev argc argv World_start).2) = 1%nat ∧
  is_Some (the_app (main cfg ev argc argv World_start).2).
Proof.
  split; [|split].
  - rewrite main_dom. unfold InitApp.
    destruct (sApplication w); simpl; [done|].
    rewrite dom_insert_L. set_solver.
  - rewrite <- size_dom, main_dom. unfold InitApp. simpl.
    rewrite dom_insert_L, dom_empty_L, union_empty_r_L. apply size_singleton.
  - rewrite app_after_run. by eexists.
Qed.



End AppMoreFacts.
